(** * A shallow embedding of the particle simulator

    The Python package [simulator] (modules [particle] and [simulation]) is
    embedded twice.  The first embedding is over the real numbers: every
    Python / numpy float is a real number of [R], and the statements about
    it are statements in exact arithmetic (conservation laws, the values
    computed by the integrator).  The second embedding, the module [F64],
    is over binary64 floating-point numbers with the rounding, the signed
    zeros, the infinities and the NaNs of the code; it carries the
    statements that depend on which branch a comparison takes, on an
    exception or on the number of steps of [run].  In both, particles are
    Python objects that the simulation holds by reference; they live in a
    store indexed by object identity, and the simulation's collection is a
    list of references into that store. *)

From Stdlib Require Import Floats QArith Qround.
From Stdlib Require Import Reals Lra Lia ZArith String.
From stdpp Require Import gmap list.

Set Warnings "-inexact-float".

Local Open Scope R_scope.

(** ** Decidable comparisons on real numbers *)

#[export] Instance Rlt_decision (x y : R) : Decision (x < y) := Rlt_dec x y.
#[export] Instance Rle_decision (x y : R) : Decision (x <= y) := Rle_dec x y.
#[export] Instance Rgt_decision (x y : R) : Decision (x > y) := Rgt_dec x y.
#[export] Instance Req_decision : EqDecision R := Req_dec_T.

(** ** Exceptions and results *)

Inductive exn : Type :=
  | ValueError (msg : string)
  | ZeroDivisionError (msg : string).

Inductive result (A : Type) : Type :=
  | Ok (a : A)
  | Raise (e : exn).
Arguments Ok {A} a.
Arguments Raise {A} e.

(** ** Two-component numpy arrays *)

Module Vec.

Definition t : Type := (R * R)%type.

(** [a + b], [a - b] *)
Definition add (a b : t) : t := (a.1 + b.1, a.2 + b.2).
Definition sub (a b : t) : t := (a.1 - b.1, a.2 - b.2).
(** [a * k] (array times scalar) and [k * a] (scalar times array) *)
Definition muls (a : t) (k : R) : t := (a.1 * k, a.2 * k).
Definition smul (k : R) (a : t) : t := (k * a.1, k * a.2).
(** [a / k] *)
Definition divs (a : t) (k : R) : t := (a.1 / k, a.2 / k).
(** [np.dot(a, b)] *)
Definition dot (a b : t) : R := a.1 * b.1 + a.2 * b.2.
(** [np.linalg.norm(a)] *)
Definition norm (a : t) : R := sqrt (a.1 * a.1 + a.2 * a.2).

End Vec.

(** ** particle.py *)

Module Particle.

Record t : Type := mk {
  _position : Vec.t;
  _velocity : Vec.t;
  _mass : R;
  _radius : R
}.

(** [Particle.__init__]; an omitted keyword argument is [None]. *)
Definition __init__ (position velocity : option Vec.t) (mass radius : option R)
  : result t :=
  let position := default (0, 0) position in
  let velocity := default (0, 0) velocity in
  let mass := default 1 mass in
  let radius := default 1 radius in
  if decide (mass <= 0) then Raise (ValueError "Mass must be positive")
  else if decide (radius <= 0) then Raise (ValueError "Radius must be positive")
  else Ok (mk position velocity mass radius).

(** Property getters (the arrays are returned as copies, i.e. by value)
    and setters. *)
Definition position (self : t) : Vec.t := _position self.
Definition velocity (self : t) : Vec.t := _velocity self.
Definition mass (self : t) : R := _mass self.
Definition radius (self : t) : R := _radius self.

Definition set_position (value : Vec.t) (self : t) : t :=
  mk value (_velocity self) (_mass self) (_radius self).
Definition set_velocity (value : Vec.t) (self : t) : t :=
  mk (_position self) value (_mass self) (_radius self).

(** [Particle.update]: the velocity is updated first, the position then
    uses the updated velocity. *)
Definition update (dt : R) (acceleration : Vec.t) (self : t) : t :=
  let acc := acceleration in
  let self1 :=
    mk (_position self) (Vec.add (_velocity self) (Vec.muls acc dt))
       (_mass self) (_radius self) in
  mk (Vec.add (_position self1) (Vec.muls (_velocity self1) dt))
     (_velocity self1) (_mass self1) (_radius self1).

Definition kinetic_energy (self : t) : R :=
  let speed_squared := Vec.dot (_velocity self) (_velocity self) in
  0.5 * _mass self * speed_squared.

Definition momentum (self : t) : Vec.t :=
  Vec.smul (_mass self) (_velocity self).

Definition distance_to (self other : t) : R :=
  let diff := Vec.sub (_position self) (_position other) in
  Vec.norm diff.

Definition collides_with (self other : t) : bool :=
  let distance := distance_to self other in
  bool_decide (distance < _radius self + _radius other).

End Particle.

(** ** simulation.py *)

Module Simulation.

(** The attributes of a [Simulation] object.  [_particles] holds the
    particles by reference (object identity). *)
Record t : Type := mk {
  _particles : list nat;
  _gravity : Vec.t;
  _bounds : option (R * R);
  _time : R
}.

(** The program state: the store of particle objects and the simulation
    object itself.  A method call on a particle rewrites its entry of the
    store ([alter]), so the same object entered twice in [_particles] is
    mutated through both entries.  A reference without an entry does not
    arise in Python; the functions below leave the store unchanged there. *)
Record state : Type := State {
  heap : gmap nat Particle.t;
  this : t
}.

Definition set_heap (f : gmap nat Particle.t → gmap nat Particle.t) (s : state) : state :=
  State (f (heap s)) (this s).
Definition set_this (f : t → t) (s : state) : state :=
  State (heap s) (f (this s)).

(** *** The state-and-exception monad of the methods

    A raised exception leaves the state as it was when it was raised. *)
Definition M (A : Type) : Type := state → result A * state.

#[export] Instance M_ret : MRet M := λ A a s, (Ok a, s).
#[export] Instance M_bind : MBind M := λ A B f m s,
  match m s with
  | (Ok a, s') => f a s'
  | (Raise e, s') => (Raise e, s')
  end.
Definition raise {A} (e : exn) : M A := λ s, (Raise e, s).
Definition gets {A} (f : state → A) : M A := λ s, (Ok (f s), s).
Definition modify (f : state → state) : M unit := λ s, (Ok tt, f s).
(** [try: body except ValueError: handler] *)
Definition try_except_ValueError {A} (body handler : M A) : M A := λ s,
  match body s with
  | (Raise (ValueError _), s') => handler s'
  | r => r
  end.

Definition __init__ (gravity : option Vec.t) (bounds : option (R * R)) : t :=
  mk [] (default (0, -9.81) gravity) bounds 0.

Definition add_particle (particle : nat) : M unit :=
  modify (set_this (λ self,
    mk (_particles self ++ [particle]) (_gravity self) (_bounds self) (_time self))).

(** [list.remove(x)]: deletes the first item equal to [x] and raises
    [ValueError] when there is none.  [Particle] defines no [__eq__], so
    two particles are equal exactly when they are the same object. *)
Fixpoint list_remove (x : nat) (l : list nat) : result (list nat) :=
  match l with
  | [] => Raise (ValueError "list.remove(x): x not in list")
  | y :: l' =>
      if decide (y = x) then Ok l'
      else match list_remove x l' with
           | Ok l'' => Ok (y :: l'')
           | Raise e => Raise e
           end
  end.

Definition remove_particle (particle : nat) : M bool :=
  try_except_ValueError
    (λ s, match list_remove particle (_particles (this s)) with
          | Ok l =>
              (Ok true,
               set_this (λ self, mk l (_gravity self) (_bounds self) (_time self)) s)
          | Raise e => (Raise e, s)
          end)
    (mret false).

Definition clear : M unit :=
  modify (set_this (λ self, mk [] (_gravity self) (_bounds self) 0)).

(** The body of the loop of [_handle_boundary_collisions] for one
    particle: the four tests run in sequence on the local copies [pos]
    and [vel], which are then written back. *)
Definition reflect (width height : R) (particle : Particle.t) : Particle.t :=
  let pos := Particle.position particle in
  let vel := Particle.velocity particle in
  let radius := Particle.radius particle in
  (* Left boundary *)
  let '(pos, vel) :=
    if decide (pos.1 - radius < 0) then ((radius, pos.2), (Rabs vel.1, vel.2))
    else (pos, vel) in
  (* Right boundary *)
  let '(pos, vel) :=
    if decide (pos.1 + radius > width)
    then ((width - radius, pos.2), (- Rabs vel.1, vel.2))
    else (pos, vel) in
  (* Bottom boundary *)
  let '(pos, vel) :=
    if decide (pos.2 - radius < 0) then ((pos.1, radius), (vel.1, Rabs vel.2))
    else (pos, vel) in
  (* Top boundary *)
  let '(pos, vel) :=
    if decide (pos.2 + radius > height)
    then ((pos.1, height - radius), (vel.1, - Rabs vel.2))
    else (pos, vel) in
  Particle.set_velocity vel (Particle.set_position pos particle).

Definition _handle_boundary_collisions (s : state) : state :=
  match _bounds (this s) with
  | None => s
  | Some (width, height) =>
      set_heap (λ h, foldl (λ h particle, alter (reflect width height) particle h)
                           h (_particles (this s))) s
  end.

(** [_resolve_collision(p1, p2)] on the store; [p1] and [p2] are the
    references of the two particles.  The arrays read at the start are
    copies, so the later writes do not affect them.  Masses are positive by
    [Particle.__init__] and cannot be changed afterwards, so the divisions
    by [m1], [m2] and [1 / m1 + 1 / m2] never fail. *)
Definition _resolve_collision (p1 p2 : nat) (h : gmap nat Particle.t)
  : gmap nat Particle.t :=
  match h !! p1, h !! p2 with
  | Some o1, Some o2 =>
      let pos1 := Particle.position o1 in
      let pos2 := Particle.position o2 in
      let vel1 := Particle.velocity o1 in
      let vel2 := Particle.velocity o2 in
      let m1 := Particle.mass o1 in
      let m2 := Particle.mass o2 in
      let normal := Vec.sub pos1 pos2 in
      let distance := Vec.norm normal in
      if decide (distance = 0) then h
      else
        let normal := Vec.divs normal distance in
        let rel_vel := Vec.sub vel1 vel2 in
        let vel_along_normal := Vec.dot rel_vel normal in
        if decide (vel_along_normal > 0) then h
        else
          let impulse := -2 * vel_along_normal / (1 / m1 + 1 / m2) in
          let vel1 := Vec.add vel1 (Vec.smul (impulse / m1) normal) in
          let vel2 := Vec.sub vel2 (Vec.smul (impulse / m2) normal) in
          let h := alter (Particle.set_velocity vel1) p1 h in
          let h := alter (Particle.set_velocity vel2) p2 h in
          let overlap := (Particle.radius o1 + Particle.radius o2) - distance in
          if decide (overlap > 0) then
            let separation := Vec.muls normal (overlap / 2 + 0.01) in
            let h := alter (Particle.set_position (Vec.add pos1 separation)) p1 h in
            alter (Particle.set_position (Vec.sub pos2 separation)) p2 h
          else h
  | _, _ => h
  end.

(** The body of the inner loop of [_handle_particle_collisions]. *)
Definition collide (ps : list nat) (i j : nat) (h : gmap nat Particle.t)
  : gmap nat Particle.t :=
  match ps !! i, ps !! j with
  | Some p1, Some p2 =>
      match h !! p1, h !! p2 with
      | Some o1, Some o2 =>
          if Particle.collides_with o1 o2 then _resolve_collision p1 p2 h else h
      | _, _ => h
      end
  | _, _ => h
  end.

Definition _handle_particle_collisions (s : state) : state :=
  let ps := _particles (this s) in
  let n := length ps in
  set_heap (λ h,
    foldl (λ h i, foldl (λ h j, collide ps i j h) h (seq (i + 1) (n - (i + 1))))
          h (seq 0 n)) s.

(** The three mutations of [step] outside the collision handlers: the
    loop calling [particle.update(dt, tuple(self._gravity))], the guarded
    call of the boundary handler, and [self._time += dt]. *)
Definition update_all (dt : R) (s : state) : state :=
  set_heap (λ h,
    foldl (λ h particle, alter (Particle.update dt (_gravity (this s))) particle h)
          h (_particles (this s))) s.

Definition boundary_phase (s : state) : state :=
  if _bounds (this s) is Some _ then _handle_boundary_collisions s else s.

Definition advance_time (dt : R) (s : state) : state :=
  set_this (λ self,
    mk (_particles self) (_gravity self) (_bounds self) (_time self + dt)) s.

Definition step (dt : R) : M unit :=
  if decide (dt <= 0) then raise (ValueError "Time step must be positive")
  else
    (* Update all particles *)
    modify (update_all dt) ;;
    (* Handle boundary collisions if bounds are defined *)
    modify boundary_phase ;;
    (* Handle particle-particle collisions *)
    modify _handle_particle_collisions ;;
    modify (advance_time dt).

(** [sum(p.kinetic_energy() for p in self._particles)]; [sum] starts
    from 0 and adds from the left. *)
Definition total_kinetic_energy (s : state) : R :=
  foldl (λ acc p, match heap s !! p with
                  | Some o => acc + Particle.kinetic_energy o
                  | None => acc
                  end) 0 (_particles (this s)).

Definition total_momentum (s : state) : Vec.t :=
  match _particles (this s) with
  | [] => (0, 0)
  | ps => foldl (λ acc p, match heap s !! p with
                          | Some o => Vec.add acc (Particle.momentum o)
                          | None => acc
                          end) (0, 0) ps
  end.

End Simulation.

(** * Auxiliary notions for the statements *)

(** The left-then-right (bottom-then-top) tests of the boundary handler on
    one axis, as a function of the coordinate and the velocity component. *)
Definition axis_tests (w r : R) (xv : R * R) : R * R :=
  let xv1 := if decide (xv.1 - r < 0) then (r, Rabs xv.2) else xv in
  if decide (xv1.1 + r > w) then (w - r, - Rabs xv1.2) else xv1.

(** The quantities of [_resolve_collision] for two particle states: the
    unit collision normal, the relative velocity along it, and the impulse
    scalar. *)
Definition unit_normal (o1 o2 : Particle.t) : Vec.t :=
  Vec.divs (Vec.sub (Particle.position o1) (Particle.position o2))
           (Particle.distance_to o1 o2).

Definition vel_along_normal (o1 o2 : Particle.t) : R :=
  Vec.dot (Vec.sub (Particle.velocity o1) (Particle.velocity o2)) (unit_normal o1 o2).

Definition impulse (o1 o2 : Particle.t) : R :=
  -2 * vel_along_normal o1 o2 / (1 / Particle.mass o1 + 1 / Particle.mass o2).

Definition overlap (o1 o2 : Particle.t) : R :=
  (Particle.radius o1 + Particle.radius o2) - Particle.distance_to o1 o2.

(** The state after [n] consecutive calls [step dt]. *)
Fixpoint iter_step (n : nat) (dt : R) (s : Simulation.state) : Simulation.state :=
  match n with
  | O => s
  | S n => iter_step n dt (Simulation.step dt s).2
  end.

(** Names the quantities of a resolution between [o1] and [o2] in the goal. *)
Ltac name_collision o1 o2 :=
  change (Vec.norm (Vec.sub (Particle.position o1) (Particle.position o2)))
    with (Particle.distance_to o1 o2);
  change (Vec.divs (Vec.sub (Particle.position o1) (Particle.position o2))
            (Particle.distance_to o1 o2))
    with (unit_normal o1 o2);
  change (Vec.dot (Vec.sub (Particle.velocity o1) (Particle.velocity o2))
            (unit_normal o1 o2))
    with (vel_along_normal o1 o2);
  change (-2 * vel_along_normal o1 o2 / (1 / Particle.mass o1 + 1 / Particle.mass o2))
    with (impulse o1 o2);
  change (Particle.radius o1 + Particle.radius o2 - Particle.distance_to o1 o2)
    with (overlap o1 o2).

(** * The code in float64 arithmetic

    The second embedding runs the same code on IEEE 754 binary64 numbers
    (Rocq's primitive floats, rounding to nearest even), which is what
    Python's [float] and numpy's [float64] compute.  It is used for the
    properties whose truth depends on the outcome of a comparison, on a
    count or on an exception, where rounding matters.  [np.dot] of two
    2-element arrays is [a0*b0 + a1*b1] with each operation rounded, and
    [np.linalg.norm] is the square root of the dot product of the array
    with itself. *)

Module F64.

Local Open Scope float_scope.

Inductive exn : Type :=
  | ValueError (msg : string)
  | ZeroDivisionError (msg : string)
  | OverflowError (msg : string).

Inductive result (A : Type) : Type :=
  | Ok (a : A)
  | Raise (e : exn).
Arguments Ok {A} a.
Arguments Raise {A} e.

Module Vec.

Definition t : Type := (float * float)%type.

Definition add (a b : t) : t := (a.1 + b.1, a.2 + b.2).
Definition sub (a b : t) : t := (a.1 - b.1, a.2 - b.2).
Definition muls (a : t) (k : float) : t := (a.1 * k, a.2 * k).
Definition smul (k : float) (a : t) : t := (k * a.1, k * a.2).
Definition divs (a : t) (k : float) : t := (a.1 / k, a.2 / k).
(** [np.dot(a, b)] *)
Definition dot (a b : t) : float := a.1 * b.1 + a.2 * b.2.
(** [np.linalg.norm(a)] *)
Definition norm (a : t) : float := PrimFloat.sqrt (dot a a).

End Vec.

Module Particle.

Record t : Type := mk {
  _position : Vec.t;
  _velocity : Vec.t;
  _mass : float;
  _radius : float
}.

Definition position (self : t) : Vec.t := _position self.
Definition velocity (self : t) : Vec.t := _velocity self.
Definition mass (self : t) : float := _mass self.
Definition radius (self : t) : float := _radius self.

Definition set_position (value : Vec.t) (self : t) : t :=
  mk value (_velocity self) (_mass self) (_radius self).
Definition set_velocity (value : Vec.t) (self : t) : t :=
  mk (_position self) value (_mass self) (_radius self).

Definition update (dt : float) (acceleration : Vec.t) (self : t) : t :=
  let acc := acceleration in
  let self1 :=
    mk (_position self) (Vec.add (_velocity self) (Vec.muls acc dt))
       (_mass self) (_radius self) in
  mk (Vec.add (_position self1) (Vec.muls (_velocity self1) dt))
     (_velocity self1) (_mass self1) (_radius self1).

Definition distance_to (self other : t) : float :=
  let diff := Vec.sub (_position self) (_position other) in
  Vec.norm diff.

Definition collides_with (self other : t) : bool :=
  let distance := distance_to self other in
  distance <? _radius self + _radius other.

End Particle.

Module Simulation.

Record t : Type := mk {
  _particles : list nat;
  _gravity : Vec.t;
  _bounds : option (float * float);
  _time : float
}.

(** The store of particle objects and the simulation object, as in the
    exact-arithmetic embedding. *)
Record state : Type := State {
  heap : gmap nat Particle.t;
  this : t
}.

Definition set_heap (f : gmap nat Particle.t → gmap nat Particle.t) (s : state) : state :=
  State (f (heap s)) (this s).
Definition set_this (f : t → t) (s : state) : state :=
  State (heap s) (f (this s)).

Definition M (A : Type) : Type := state → result A * state.

#[export] Instance M_ret : MRet M := λ A a s, (Ok a, s).
#[export] Instance M_bind : MBind M := λ A B f m s,
  match m s with
  | (Ok a, s') => f a s'
  | (Raise e, s') => (Raise e, s')
  end.
Definition raise {A} (e : exn) : M A := λ s, (Raise e, s).
Definition gets {A} (f : state → A) : M A := λ s, (Ok (f s), s).
Definition modify (f : state → state) : M unit := λ s, (Ok tt, f s).

(** The body of the loop of [_handle_boundary_collisions] for one
    particle.  [a > b] is [b < a]; a comparison with a NaN is false. *)
Definition reflect (width height : float) (particle : Particle.t) : Particle.t :=
  let pos := Particle.position particle in
  let vel := Particle.velocity particle in
  let radius := Particle.radius particle in
  (* Left boundary *)
  let '(pos, vel) :=
    if pos.1 - radius <? 0 then ((radius, pos.2), (PrimFloat.abs vel.1, vel.2))
    else (pos, vel) in
  (* Right boundary *)
  let '(pos, vel) :=
    if width <? pos.1 + radius
    then ((width - radius, pos.2), (- PrimFloat.abs vel.1, vel.2))
    else (pos, vel) in
  (* Bottom boundary *)
  let '(pos, vel) :=
    if pos.2 - radius <? 0 then ((pos.1, radius), (vel.1, PrimFloat.abs vel.2))
    else (pos, vel) in
  (* Top boundary *)
  let '(pos, vel) :=
    if height <? pos.2 + radius
    then ((pos.1, height - radius), (vel.1, - PrimFloat.abs vel.2))
    else (pos, vel) in
  Particle.set_velocity vel (Particle.set_position pos particle).

Definition _handle_boundary_collisions (s : state) : state :=
  match _bounds (this s) with
  | None => s
  | Some (width, height) =>
      set_heap (λ h, foldl (λ h particle, alter (reflect width height) particle h)
                           h (_particles (this s))) s
  end.

(** [_resolve_collision(p1, p2)].  Masses are nonzero by
    [Particle.__init__], so [1 / m1] and [1 / m2] do not raise. *)
Definition _resolve_collision (p1 p2 : nat) (h : gmap nat Particle.t)
  : gmap nat Particle.t :=
  match h !! p1, h !! p2 with
  | Some o1, Some o2 =>
      let pos1 := Particle.position o1 in
      let pos2 := Particle.position o2 in
      let vel1 := Particle.velocity o1 in
      let vel2 := Particle.velocity o2 in
      let m1 := Particle.mass o1 in
      let m2 := Particle.mass o2 in
      let normal := Vec.sub pos1 pos2 in
      let distance := Vec.norm normal in
      if distance =? 0 then h
      else
        let normal := Vec.divs normal distance in
        let rel_vel := Vec.sub vel1 vel2 in
        let vel_along_normal := Vec.dot rel_vel normal in
        if 0 <? vel_along_normal then h
        else
          let impulse := -2 * vel_along_normal / (1 / m1 + 1 / m2) in
          let vel1 := Vec.add vel1 (Vec.smul (impulse / m1) normal) in
          let vel2 := Vec.sub vel2 (Vec.smul (impulse / m2) normal) in
          let h := alter (Particle.set_velocity vel1) p1 h in
          let h := alter (Particle.set_velocity vel2) p2 h in
          let overlap := (Particle.radius o1 + Particle.radius o2) - distance in
          if 0 <? overlap then
            let separation := Vec.muls normal (overlap / 2 + 0.01) in
            let h := alter (Particle.set_position (Vec.add pos1 separation)) p1 h in
            alter (Particle.set_position (Vec.sub pos2 separation)) p2 h
          else h
  | _, _ => h
  end.

Definition collide (ps : list nat) (i j : nat) (h : gmap nat Particle.t)
  : gmap nat Particle.t :=
  match ps !! i, ps !! j with
  | Some p1, Some p2 =>
      match h !! p1, h !! p2 with
      | Some o1, Some o2 =>
          if Particle.collides_with o1 o2 then _resolve_collision p1 p2 h else h
      | _, _ => h
      end
  | _, _ => h
  end.

Definition _handle_particle_collisions (s : state) : state :=
  let ps := _particles (this s) in
  let n := length ps in
  set_heap (λ h,
    foldl (λ h i, foldl (λ h j, collide ps i j h) h (seq (i + 1) (n - (i + 1))))
          h (seq 0 n)) s.

Definition update_all (dt : float) (s : state) : state :=
  set_heap (λ h,
    foldl (λ h particle, alter (Particle.update dt (_gravity (this s))) particle h)
          h (_particles (this s))) s.

Definition boundary_phase (s : state) : state :=
  if _bounds (this s) is Some _ then _handle_boundary_collisions s else s.

Definition advance_time (dt : float) (s : state) : state :=
  set_this (λ self,
    mk (_particles self) (_gravity self) (_bounds self) (_time self + dt)) s.

Definition step (dt : float) : M unit :=
  if dt <=? 0 then raise (ValueError "Time step must be positive")
  else
    modify (update_all dt) ;;
    modify boundary_phase ;;
    modify _handle_particle_collisions ;;
    modify (advance_time dt).

(** Python's [int] on a float: truncation towards zero, [OverflowError]
    on an infinity and [ValueError] on a NaN.  A finite float is
    [(-1)^s * m * 2^e]; [Z.shiftl] by a negative amount shifts right. *)
Definition int (x : float) : result Z :=
  match Prim2SF x with
  | S754_nan => Raise (ValueError "cannot convert float NaN to integer")
  | S754_infinity _ => Raise (OverflowError "cannot convert float infinity to integer")
  | S754_zero _ => Ok 0%Z
  | S754_finite s m e => Ok (cond_Zopp s (Z.shiftl (Zpos m) e))
  end.

(** One pass of the recording loop of [run]. *)
Definition record (s : state) (histories : list (list (float * float)))
  : list (list (float * float)) :=
  foldl (λ hist ip,
           match heap s !! ip.2 with
           | Some o =>
               let pos := Particle.position o in
               alter (λ l, l ++ [(pos.1, pos.2)]) ip.1 hist
           | None => hist
           end)
        histories (imap pair (_particles (this s))).

Fixpoint run_loop (num_steps : nat) (dt : float) (histories : list (list (float * float)))
  : M (list (list (float * float))) :=
  match num_steps with
  | O => mret histories
  | S n =>
      histories ← gets (λ s, record s histories);
      step dt ;;
      run_loop n dt histories
  end.

(** [run]: Python's float division raises [ZeroDivisionError] for a zero
    divisor of either sign; [range(n)] is empty for [n <= 0]. *)
Definition run (duration dt : float) : M (list (list (float * float))) :=
  histories ← gets (λ s, map (λ _, []) (_particles (this s)));
  if dt =? 0 then raise (ZeroDivisionError "float division by zero")
  else
    match int (duration / dt) with
    | Raise e => raise e
    | Ok num_steps => run_loop (Z.to_nat num_steps) dt histories
    end.

End Simulation.

End F64.

(** ** Auxiliary notions for the float64 statements *)

(** The rational number that a finite float64 [(-1)^s * m * 2^e] denotes:
    [m / 2^p] for a negative exponent [-p], [m * 2^e] otherwise (0 for an
    infinity or a NaN, which have no value). *)
Definition exact (x : float) : Q :=
  match Prim2SF x with
  | S754_finite s m (Zneg p) => Qmake (cond_Zopp s (Zpos m)) (2 ^ p)%positive
  | S754_finite s m e => inject_Z (cond_Zopp s (Zpos m) * 2 ^ e)
  | _ => 0%Q
  end.

(** A float64 that is neither an infinity nor a NaN. *)
Definition finite64 (x : float) : bool :=
  match Prim2SF x with
  | S754_zero _ | S754_finite _ _ _ => true
  | S754_infinity _ | S754_nan => false
  end.











(** How one pass of the boundary tests maps the coordinate [x] and the
    velocity component [v] of a particle of radius [r] to [x'] and [v'] on
    an axis whose walls are at 0 and [w]; every operation is the float64
    one. *)
Definition reflected_axis64 (w r x v x' v' : float) : Prop :=
  ((x - r <? 0) = false → (w <? x + r) = true → x' = w - r ∧ v' = - PrimFloat.abs v)%float
  ∧ ((x - r <? 0) = true → (w <? r + r) = false → x' = r ∧ v' = PrimFloat.abs v)%float
  ∧ ((x - r <? 0) = true → (w <? r + r) = true → x' = w - r ∧ v' = - PrimFloat.abs v)%float
  ∧ ((x - r <? 0) = false → (w <? x + r) = false → x' = x ∧ v' = v)%float.

(** The float64 state after [n] consecutive calls [step dt]. *)
Fixpoint iter_step64 (n : nat) (dt : float) (s : F64.Simulation.state)
  : F64.Simulation.state :=
  match n with
  | O => s
  | S n => iter_step64 n dt (F64.Simulation.step dt s).2
  end.

(** Every reference held by the collection denotes an object of the store
    (a Python reference is never dangling). *)
Definition live64 (s : F64.Simulation.state) : Prop :=
  ∀ r, r ∈ F64.Simulation._particles (F64.Simulation.this s) →
       is_Some (F64.Simulation.heap s !! r).

(** The positions recorded for the object [r] before each of [n]
    consecutive steps. *)
Fixpoint positions_before64 (n : nat) (dt : float) (r : nat) (s : F64.Simulation.state)
  : list (float * float) :=
  match n with
  | O => []
  | S n =>
      match F64.Simulation.heap s !! r with
      | Some o => [((F64.Particle.position o).1, (F64.Particle.position o).2)]
      | None => []
      end ++ positions_before64 n dt r (F64.Simulation.step dt s).2
  end.

(** * Properties *)

Import Simulation.

(** ** Construction of particles *)

(** C8: construction raises [ValueError] (the spec's InvalidParameter)
    whenever the mass or the radius, given or defaulted, is not positive;
    with positive mass and radius it returns a particle holding exactly the
    given position, velocity, mass and radius, where an omitted argument
    stands for position (0,0), velocity (0,0), mass 1 and radius 1. *)
Theorem particle_init_spec
    (position velocity : option Vec.t) (mass radius : option R) :
  (default 1 mass <= 0 ∨ default 1 radius <= 0 →
     ∃ msg, Particle.__init__ position velocity mass radius = Raise (ValueError msg))
  ∧ (0 < default 1 mass → 0 < default 1 radius →
     Particle.__init__ position velocity mass radius =
       Ok (Particle.mk (default (0, 0) position) (default (0, 0) velocity)
                       (default 1 mass) (default 1 radius)))
  ∧ Particle.__init__ None None None None = Ok (Particle.mk (0, 0) (0, 0) 1 1).
Proof.
  unfold Particle.__init__. repeat split.
  - intros [Hm | Hr].
    + rewrite decide_True by done. eauto.
    + destruct (decide (default 1 mass <= 0)); [eauto |].
      rewrite decide_True by done. eauto.
  - intros Hm Hr.
    rewrite decide_False by lra. rewrite decide_False by lra. done.
  - simpl. rewrite decide_False by lra. rewrite decide_False by lra. done.
Qed.

Lemma particle_init_spec_witness :
  (∃ msg, Particle.__init__ None None (Some (-1)) None = Raise (ValueError msg))
  ∧ Particle.__init__ (Some (3, 4)) None (Some 2) None
    = Ok (Particle.mk (3, 4) (0, 0) 2 1).
Proof.
  split.
  - apply (proj1 (particle_init_spec None None (Some (-1)) None)).
    left. simpl. lra.
  - apply (proj1 (proj2 (particle_init_spec (Some (3, 4)) None (Some 2) None)));
      simpl; lra.
Defined.


(** ** Validation of the time step *)

(** C4: for every [dt <= 0], [step] raises [ValueError] and the state it
    leaves behind is the state it was called in: no particle and no
    attribute of the simulation (the clock included) has changed. *)
Theorem step_invalid_dt (dt : R) (s : state) :
  dt <= 0 →
  step dt s = (Raise (ValueError "Time step must be positive"), s).
Proof.
  intros Hdt. unfold step. by rewrite decide_True.
Qed.

Lemma step_invalid_dt_witness :
  step (-1) (State ∅ (Simulation.__init__ None None))
  = (Raise (ValueError "Time step must be positive"),
     State ∅ (Simulation.__init__ None None)).
Proof. apply step_invalid_dt. lra. Defined.

(** ** Removal of particles *)

Lemma list_remove_first (p : nat) (l1 l2 : list nat) :
  p ∉ l1 → list_remove p (l1 ++ p :: l2) = Ok (l1 ++ l2).
Proof.
  induction l1 as [| y l1 IH]; intros Hnot; simpl.
  - by rewrite decide_True.
  - apply not_elem_of_cons in Hnot as [Hne Hnot].
    rewrite decide_False by done. by rewrite IH.
Qed.

Lemma list_remove_absent (p : nat) (l : list nat) :
  p ∉ l → ∃ msg, list_remove p l = Raise (ValueError msg).
Proof.
  induction l as [| y l IH]; intros Hnot; simpl.
  - eauto.
  - apply not_elem_of_cons in Hnot as [Hne Hnot].
    rewrite decide_False by done.
    destruct (IH Hnot) as [msg ->]. eauto.
Qed.

(** C9: [remove_particle p] deletes the first entry that is the object [p]
    and keeps all other entries in their order, returning true; when no
    entry is [p] the state is unchanged and false is returned, without an
    exception.  The match is by identity: an earlier entry [q] that is a
    different object with the same attribute values stays. *)
Theorem remove_particle_spec (p : nat) (s : state) :
  (∀ l1 l2, _particles (this s) = l1 ++ p :: l2 → p ∉ l1 →
     remove_particle p s
     = (Ok true,
        State (heap s) (mk (l1 ++ l2) (_gravity (this s)) (_bounds (this s))
                           (_time (this s)))))
  ∧ (p ∉ _particles (this s) → remove_particle p s = (Ok false, s))
  ∧ (∀ q o l, q ≠ p → heap s !! q = Some o → heap s !! p = Some o →
     _particles (this s) = q :: p :: l →
     remove_particle p s
     = (Ok true,
        State (heap s) (mk (q :: l) (_gravity (this s)) (_bounds (this s))
                           (_time (this s))))).
Proof.
  assert (Hfirst : ∀ l1 l2, _particles (this s) = l1 ++ p :: l2 → p ∉ l1 →
     remove_particle p s
     = (Ok true,
        State (heap s) (mk (l1 ++ l2) (_gravity (this s)) (_bounds (this s))
                           (_time (this s))))).
  { intros l1 l2 Hl Hnot. unfold remove_particle, try_except_ValueError.
    rewrite Hl, list_remove_first by done. done. }
  split; [exact Hfirst |]. split.
  - intros Hnot. unfold remove_particle, try_except_ValueError.
    destruct (list_remove_absent p _ Hnot) as [msg ->]. done.
  - intros q o l Hne _ _ Hl. apply (Hfirst [q] l Hl).
    apply not_elem_of_cons. split; [done | apply not_elem_of_nil].
Qed.

Lemma remove_particle_spec_witness :
  let o := Particle.mk (0, 0) (0, 0) 1 1 in
  let h : gmap nat Particle.t := <[1%nat := o]> (<[0%nat := o]> ∅) in
  remove_particle 1 (State h (mk [0; 1; 1]%nat (0, 0) None 0))
  = (Ok true, State h (mk [0; 1]%nat (0, 0) None 0))
  ∧ remove_particle 2 (State h (mk [0; 1; 1]%nat (0, 0) None 0))
    = (Ok false, State h (mk [0; 1; 1]%nat (0, 0) None 0)).
Proof.
  intros o h. split.
  - apply (proj1 (remove_particle_spec 1 (State h (mk [0; 1; 1]%nat (0, 0) None 0)))
             [0%nat] [1%nat]); [done |].
    apply not_elem_of_cons. split; [done | apply not_elem_of_nil].
  - apply (proj1 (proj2 (remove_particle_spec 2
             (State h (mk [0; 1; 1]%nat (0, 0) None 0))))).
    simpl. intros Hin. repeat (apply elem_of_cons in Hin as [Hin | Hin]; [done |]).
    by apply elem_of_nil in Hin.
Defined.

(** ** One step of the simulation *)

Lemma step_ok (dt : R) (s : state) :
  0 < dt →
  step dt s
  = (Ok tt, advance_time dt (_handle_particle_collisions (boundary_phase (update_all dt s)))).
Proof.
  intros Hdt. unfold step. rewrite decide_False by lra. done.
Qed.

Lemma particle_update_fields (dt : R) (acceleration : Vec.t) (p : Particle.t) :
  Particle.update dt acceleration p
  = Particle.mk
      (Vec.add (Particle.position p)
         (Vec.muls (Vec.add (Particle.velocity p) (Vec.muls acceleration dt)) dt))
      (Vec.add (Particle.velocity p) (Vec.muls acceleration dt))
      (Particle.mass p) (Particle.radius p).
Proof. done. Qed.

(** C1: [update] is a semi-implicit Euler step: the new velocity is
    [velocity + acceleration * dt] and the new position is
    [position + new velocity * dt]; mass and radius are kept.  Hence, in a
    simulation with gravity (0,-10), no bounds and a single particle at
    (0,100) with velocity (0,0), [step 1] succeeds and leaves the particle
    at (0,90) with velocity (0,-10), every other object untouched. *)
Theorem step_semi_implicit_euler :
  (∀ dt ax ay x y vx vy m rad,
     Particle.update dt (ax, ay) (Particle.mk (x, y) (vx, vy) m rad)
     = Particle.mk (x + (vx + ax * dt) * dt, y + (vy + ay * dt) * dt)
                   (vx + ax * dt, vy + ay * dt) m rad)
  ∧ (∀ (h : gmap nat Particle.t) (r : nat) m rad t,
       h !! r = Some (Particle.mk (0, 100) (0, 0) m rad) →
       ∃ h', step 1 (State h (mk [r] (0, -10) None t))
             = (Ok tt, State h' (mk [r] (0, -10) None (t + 1)))
             ∧ h' !! r = Some (Particle.mk (0, 90) (0, -10) m rad)
             ∧ ∀ r', r' ≠ r → h' !! r' = h !! r').
Proof.
  split; [done |].
  intros h r m rad t Hr.
  exists (alter (Particle.update 1 (0, -10)) r h). split; [| split].
  - rewrite step_ok by lra. done.
  - rewrite lookup_alter_eq, Hr. simpl. f_equal.
    unfold Particle.update, Vec.add, Vec.muls. simpl.
    f_equal; f_equal; lra.
  - intros r' Hne. by rewrite lookup_alter_ne.
Qed.

Lemma step_semi_implicit_euler_witness :
  ∃ h', step 1 (State {[ 0%nat := Particle.mk (0, 100) (0, 0) 1 1 ]}
                      (mk [0%nat] (0, -10) None 0))
        = (Ok tt, State h' (mk [0%nat] (0, -10) None (0 + 1)))
        ∧ h' !! 0%nat = Some (Particle.mk (0, 90) (0, -10) 1 1)
        ∧ ∀ r', r' ≠ 0%nat →
            h' !! r' = ({[ 0%nat := Particle.mk (0, 100) (0, 0) 1 1 ]} : gmap nat Particle.t) !! r'.
Proof.
  apply (proj2 step_semi_implicit_euler). apply lookup_singleton_eq.
Defined.

(** ** Boundary reflection *)

Lemma particle_ext (p q : Particle.t) :
  Particle.position p = Particle.position q →
  Particle.velocity p = Particle.velocity q →
  Particle.mass p = Particle.mass q →
  Particle.radius p = Particle.radius q →
  p = q.
Proof.
  destruct p, q. unfold Particle.position, Particle.velocity, Particle.mass,
    Particle.radius. simpl. by intros -> -> -> ->.
Qed.

Lemma reflect_fields (width height : R) (p : Particle.t) :
  Particle.mass (reflect width height p) = Particle.mass p
  ∧ Particle.radius (reflect width height p) = Particle.radius p.
Proof.
  unfold reflect. repeat case_decide; done.
Qed.

Lemma reflect_x (width height : R) (p : Particle.t) :
  ((Particle.position (reflect width height p)).1,
   (Particle.velocity (reflect width height p)).1)
  = axis_tests width (Particle.radius p)
      ((Particle.position p).1, (Particle.velocity p).1).
Proof.
  unfold reflect, axis_tests. simpl. repeat case_decide; done.
Qed.

Lemma reflect_y (width height : R) (p : Particle.t) :
  ((Particle.position (reflect width height p)).2,
   (Particle.velocity (reflect width height p)).2)
  = axis_tests height (Particle.radius p)
      ((Particle.position p).2, (Particle.velocity p).2).
Proof.
  unfold reflect, axis_tests. simpl. repeat case_decide; done.
Qed.

Lemma axis_tests_cases (w r x v : R) :
  (x + r > w → axis_tests w r (x, v) = (w - r, - Rabs v))
  ∧ (x - r < 0 → 2 * r <= w → axis_tests w r (x, v) = (r, Rabs v))
  ∧ (x - r < 0 → 2 * r > w → axis_tests w r (x, v) = (w - r, - Rabs v))
  ∧ (¬ x - r < 0 → ¬ x + r > w → axis_tests w r (x, v) = (x, v)).
Proof.
  unfold axis_tests. simpl. repeat case_decide; simpl in *; repeat split; intros;
    rewrite ?Rabs_Rabsolu; try done; try lra.
Qed.

Lemma axis_tests_idem (w r : R) (xv : R * R) :
  axis_tests w r (axis_tests w r xv) = axis_tests w r xv.
Proof.
  destruct xv as [x v].
  destruct (axis_tests_cases w r x v) as (Hfar & Hnear & Hbig & Hin).
  destruct (decide (x + r > w)) as [H1 | H1].
  - rewrite (Hfar H1).
    destruct (axis_tests_cases w r (w - r) (- Rabs v)) as (Hfar' & Hnear' & Hbig' & Hin').
    destruct (decide (2 * r > w)).
    + rewrite Hbig' by lra. by rewrite Rabs_Ropp, Rabs_Rabsolu.
    + rewrite Hin' by lra. done.
  - destruct (decide (x - r < 0)) as [H2 | H2].
    + destruct (decide (2 * r > w)).
      * rewrite (Hbig H2) by lra.
        destruct (axis_tests_cases w r (w - r) (- Rabs v)) as (_ & _ & Hbig' & _).
        rewrite Hbig' by lra. by rewrite Rabs_Ropp, Rabs_Rabsolu.
      * rewrite (Hnear H2) by lra.
        destruct (axis_tests_cases w r r (Rabs v)) as (_ & _ & _ & Hin').
        rewrite Hin' by lra. done.
    + rewrite (Hin H2 H1).
      by rewrite (Hin H2 H1).
Qed.

Lemma reflect_idem (width height : R) (p : Particle.t) :
  reflect width height (reflect width height p) = reflect width height p.
Proof.
  pose proof (reflect_fields width height p) as [Hm Hr].
  pose proof (reflect_fields width height (reflect width height p)) as [Hm' Hr'].
  assert (Hx : ((Particle.position (reflect width height (reflect width height p))).1,
                (Particle.velocity (reflect width height (reflect width height p))).1)
               = ((Particle.position (reflect width height p)).1,
                  (Particle.velocity (reflect width height p)).1)).
  { rewrite (reflect_x width height (reflect width height p)), Hr.
    rewrite (reflect_x width height p). apply axis_tests_idem. }
  assert (Hy : ((Particle.position (reflect width height (reflect width height p))).2,
                (Particle.velocity (reflect width height (reflect width height p))).2)
               = ((Particle.position (reflect width height p)).2,
                  (Particle.velocity (reflect width height p)).2)).
  { rewrite (reflect_y width height (reflect width height p)), Hr.
    rewrite (reflect_y width height p). apply axis_tests_idem. }
  apply particle_ext; [| | congruence | congruence].
  - apply injective_projections; congruence.
  - apply injective_projections; congruence.
Qed.

Lemma foldl_alter_idem (f : Particle.t → Particle.t) (l : list nat)
    (h : gmap nat Particle.t) (k : nat) :
  (∀ o, f (f o) = f o) →
  foldl (λ h r, alter f r h) h l !! k
  = if decide (k ∈ l) then f <$> h !! k else h !! k.
Proof.
  intros Hf. revert h. induction l as [| a l IH]; intros h; simpl.
  - done.
  - rewrite IH. destruct (decide (k ∈ l)) as [Hin | Hin].
    + rewrite decide_True by (by apply elem_of_cons; right).
      destruct (decide (a = k)) as [-> | Hne].
      * rewrite lookup_alter_eq. destruct (h !! k); simpl; by rewrite ?Hf.
      * by rewrite lookup_alter_ne.
    + destruct (decide (a = k)) as [-> | Hne].
      * rewrite decide_True by (by apply elem_of_cons; left).
        by rewrite lookup_alter_eq.
      * rewrite decide_False.
        -- by rewrite lookup_alter_ne.
        -- intros [? | ?]%elem_of_cons; congruence.
Qed.

(** ** Collision resolution *)

Lemma norm_zero_vector (a : Vec.t) : a = (0, 0) → Vec.norm a = 0.
Proof.
  intros ->. unfold Vec.norm. simpl.
  replace (0 * 0 + 0 * 0) with 0 by ring. apply sqrt_0.
Qed.

Lemma distance_to_self (o : Particle.t) : Particle.distance_to o o = 0.
Proof.
  unfold Particle.distance_to. apply norm_zero_vector.
  unfold Vec.sub. f_equal; ring.
Qed.

(** The normalised collision normal has length one. *)
Lemma unit_normal_unit (o1 o2 : Particle.t) :
  Particle.distance_to o1 o2 ≠ 0 →
  (unit_normal o1 o2).1 * (unit_normal o1 o2).1
  + (unit_normal o1 o2).2 * (unit_normal o1 o2).2 = 1.
Proof.
  intros Hd.
  set (a := Vec.sub (Particle.position o1) (Particle.position o2)).
  assert (Hsq : Particle.distance_to o1 o2 * Particle.distance_to o1 o2
                = a.1 * a.1 + a.2 * a.2).
  { unfold Particle.distance_to, Vec.norm. fold a. apply sqrt_sqrt. nra. }
  unfold unit_normal, Vec.divs. fold a.
  set (d := Particle.distance_to o1 o2) in *.
  cbn [fst snd].
  replace (a.1 / d * (a.1 / d) + a.2 / d * (a.2 / d))
    with ((a.1 * a.1 + a.2 * a.2) / (d * d)) by (field; done).
  rewrite <- Hsq. field. done.
Qed.

(** A resolution between an object and itself, or between coincident
    centres, is skipped. *)
Lemma resolve_collision_same (h : gmap nat Particle.t) (r : nat) :
  _resolve_collision r r h = h.
Proof.
  unfold _resolve_collision. destruct (h !! r) as [o |]; [| done].
  name_collision o o.
  rewrite decide_True; [done | apply distance_to_self].
Qed.

Lemma resolve_collision_separating (h : gmap nat Particle.t) (r1 r2 : nat)
    (o1 o2 : Particle.t) :
  h !! r1 = Some o1 → h !! r2 = Some o2 →
  Particle.distance_to o1 o2 = 0 ∨ vel_along_normal o1 o2 > 0 →
  _resolve_collision r1 r2 h = h.
Proof.
  intros H1 H2 Hskip. unfold _resolve_collision. rewrite H1, H2.
  name_collision o1 o2.
  destruct (decide (Particle.distance_to o1 o2 = 0)); [done |].
  destruct Hskip as [? | Hv]; [done |]. by rewrite decide_True.
Qed.

(** When the impulse is applied, the two objects are rewritten as follows
    and nothing else changes. *)
Lemma resolve_collision_applied (h : gmap nat Particle.t) (r1 r2 : nat)
    (o1 o2 : Particle.t) :
  h !! r1 = Some o1 → h !! r2 = Some o2 →
  Particle.distance_to o1 o2 ≠ 0 →
  ¬ vel_along_normal o1 o2 > 0 →
  let n := unit_normal o1 o2 in
  let vel1 := Vec.add (Particle.velocity o1)
                (Vec.smul (impulse o1 o2 / Particle.mass o1) n) in
  let vel2 := Vec.sub (Particle.velocity o2)
                (Vec.smul (impulse o1 o2 / Particle.mass o2) n) in
  let separation := Vec.muls n (overlap o1 o2 / 2 + 0.01) in
  let pos1 := if decide (overlap o1 o2 > 0)
              then Vec.add (Particle.position o1) separation
              else Particle.position o1 in
  let pos2 := if decide (overlap o1 o2 > 0)
              then Vec.sub (Particle.position o2) separation
              else Particle.position o2 in
  let h' := _resolve_collision r1 r2 h in
  r1 ≠ r2
  ∧ h' !! r1 = Some (Particle.mk pos1 vel1 (Particle.mass o1) (Particle.radius o1))
  ∧ h' !! r2 = Some (Particle.mk pos2 vel2 (Particle.mass o2) (Particle.radius o2))
  ∧ ∀ r, r ≠ r1 → r ≠ r2 → h' !! r = h !! r.
Proof.
  intros H1 H2 Hd Hv n vel1 vel2 separation pos1 pos2 h'.
  assert (Hne : r1 ≠ r2).
  { intros ->. rewrite H1 in H2. injection H2 as ->.
    apply Hd, distance_to_self. }
  split; [done |].
  unfold h', _resolve_collision. rewrite H1, H2.
  name_collision o1 o2.
  rewrite (decide_False (P := Particle.distance_to o1 o2 = 0)) by done.
  rewrite (decide_False (P := vel_along_normal o1 o2 > 0)) by done.
  fold n. fold vel1. fold vel2. fold separation.
  unfold pos1, pos2.
  destruct (decide (overlap o1 o2 > 0)) as [Hov | Hov]; repeat split.
  - rewrite lookup_alter_ne, lookup_alter_eq, lookup_alter_ne, lookup_alter_eq, H1 by done.
    done.
  - rewrite lookup_alter_eq, lookup_alter_ne, lookup_alter_eq, lookup_alter_ne, H2 by done.
    done.
  - intros r Hr1 Hr2. by rewrite !lookup_alter_ne.
  - rewrite lookup_alter_ne, lookup_alter_eq, H1 by done. done.
  - rewrite lookup_alter_eq, lookup_alter_ne, H2 by done. done.
  - intros r Hr1 Hr2. by rewrite !lookup_alter_ne.
Qed.

(** *** Conservation laws of the impulse *)

Lemma impulse_conserves_momentum (m1 m2 j : R) (v1 v2 n : Vec.t) :
  m1 ≠ 0 → m2 ≠ 0 →
  Vec.add (Vec.smul m1 (Vec.add v1 (Vec.smul (j / m1) n)))
          (Vec.smul m2 (Vec.sub v2 (Vec.smul (j / m2) n)))
  = Vec.add (Vec.smul m1 v1) (Vec.smul m2 v2).
Proof.
  intros Hm1 Hm2. unfold Vec.add, Vec.sub, Vec.smul. simpl.
  f_equal; field; done.
Qed.

Lemma half_decimal : 0.5 = / 2.
Proof. lra. Qed.

Lemma impulse_conserves_energy (m1 m2 vn j : R) (v1 v2 n : Vec.t) :
  0 < m1 → 0 < m2 →
  n.1 * n.1 + n.2 * n.2 = 1 →
  vn = Vec.dot (Vec.sub v1 v2) n →
  j = -2 * vn / (1 / m1 + 1 / m2) →
  let v1' := Vec.add v1 (Vec.smul (j / m1) n) in
  let v2' := Vec.sub v2 (Vec.smul (j / m2) n) in
  0.5 * m1 * Vec.dot v1' v1' + 0.5 * m2 * Vec.dot v2' v2'
  = 0.5 * m1 * Vec.dot v1 v1 + 0.5 * m2 * Vec.dot v2 v2.
Proof.
  intros Hm1 Hm2 Hn Hvn Hj v1' v2'. subst v1' v2'.
  assert (Hk : 1 / m1 + 1 / m2 ≠ 0).
  { assert (0 < 1 / m1) by (apply Rdiv_lt_0_compat; lra).
    assert (0 < 1 / m2) by (apply Rdiv_lt_0_compat; lra). lra. }
  assert (Hjk : j * (1 / m1 + 1 / m2) = -2 * vn).
  { rewrite Hj. field. repeat split; lra || (intros ?; apply Hk; field; lra). }
  unfold Vec.dot, Vec.add, Vec.sub, Vec.smul in *.
  destruct v1 as [v1x v1y], v2 as [v2x v2y], n as [nx ny]. cbn [fst snd] in *.
  rewrite half_decimal.
  transitivity
    (/ 2 * m1 * (v1x * v1x + v1y * v1y) + / 2 * m2 * (v2x * v2x + v2y * v2y)
     + j * ((v1x - v2x) * nx + (v1y - v2y) * ny)
     + j / 2 * (j * (1 / m1 + 1 / m2)) * (nx * nx + ny * ny)).
  - field. lra.
  - rewrite Hn, Hjk, <- Hvn. field.
Qed.

(** Whenever [_resolve_collision] applies its impulse to two particles of
    positive mass, the new velocities are those of the impulse and both
    the total momentum and the total kinetic energy of the pair are kept. *)
Lemma resolve_collision_conserves (h : gmap nat Particle.t) (r1 r2 : nat)
    (o1 o2 : Particle.t) :
  h !! r1 = Some o1 → h !! r2 = Some o2 →
  0 < Particle.mass o1 → 0 < Particle.mass o2 →
  Particle.distance_to o1 o2 ≠ 0 →
  ¬ vel_along_normal o1 o2 > 0 →
  ∃ o1' o2',
    _resolve_collision r1 r2 h !! r1 = Some o1'
    ∧ _resolve_collision r1 r2 h !! r2 = Some o2'
    ∧ Particle.velocity o1'
      = Vec.add (Particle.velocity o1)
          (Vec.smul (impulse o1 o2 / Particle.mass o1) (unit_normal o1 o2))
    ∧ Particle.velocity o2'
      = Vec.sub (Particle.velocity o2)
          (Vec.smul (impulse o1 o2 / Particle.mass o2) (unit_normal o1 o2))
    ∧ Vec.add (Particle.momentum o1') (Particle.momentum o2')
      = Vec.add (Particle.momentum o1) (Particle.momentum o2)
    ∧ Particle.kinetic_energy o1' + Particle.kinetic_energy o2'
      = Particle.kinetic_energy o1 + Particle.kinetic_energy o2.
Proof.
  intros H1 H2 Hm1 Hm2 Hd Hv.
  destruct (resolve_collision_applied h r1 r2 o1 o2 H1 H2 Hd Hv)
    as (_ & Hr1 & Hr2 & _).
  eexists _, _. split; [exact Hr1 |]. split; [exact Hr2 |].
  split; [done |]. split; [done |]. split.
  - unfold Particle.momentum. cbn [Particle._mass Particle._velocity].
    apply impulse_conserves_momentum; unfold Particle.mass in *; lra.
  - unfold Particle.kinetic_energy. cbn [Particle._mass Particle._velocity].
    apply (impulse_conserves_energy _ _ (vel_along_normal o1 o2)
             (impulse o1 o2)); try done.
    by apply unit_normal_unit.
Qed.

(** The inner loop body on the pair of entries 0 and 1 of a two-entry
    collection keeps the pair's total momentum and kinetic energy, whether
    or not the two entries are the same object and whether or not an
    impulse is applied. *)
Lemma collide_conserves (h : gmap nat Particle.t) (r1 r2 : nat)
    (o1 o2 : Particle.t) :
  h !! r1 = Some o1 → h !! r2 = Some o2 →
  0 < Particle.mass o1 → 0 < Particle.mass o2 →
  ∃ o1' o2',
    collide [r1; r2] 0 1 h !! r1 = Some o1'
    ∧ collide [r1; r2] 0 1 h !! r2 = Some o2'
    ∧ Vec.add (Particle.momentum o1') (Particle.momentum o2')
      = Vec.add (Particle.momentum o1) (Particle.momentum o2)
    ∧ Particle.kinetic_energy o1' + Particle.kinetic_energy o2'
      = Particle.kinetic_energy o1 + Particle.kinetic_energy o2.
Proof.
  intros H1 H2 Hm1 Hm2. unfold collide. cbn [lookup list_lookup].
  rewrite H1, H2.
  destruct (Particle.collides_with o1 o2); [| by exists o1, o2].
  destruct (decide (Particle.distance_to o1 o2 = 0)) as [Hd | Hd].
  { rewrite (resolve_collision_separating h r1 r2 o1 o2) by auto.
    by exists o1, o2. }
  destruct (decide (vel_along_normal o1 o2 > 0)) as [Hv | Hv].
  { rewrite (resolve_collision_separating h r1 r2 o1 o2) by auto.
    by exists o1, o2. }
  destruct (resolve_collision_conserves h r1 r2 o1 o2 H1 H2 Hm1 Hm2 Hd Hv)
    as (o1' & o2' & Hr1 & Hr2 & _ & _ & Hp & He).
  by exists o1', o2'.
Qed.

Lemma lookup_foldl_alter_invariant {B} (g : Particle.t → B)
    (f : Particle.t → Particle.t) (l : list nat) (h : gmap nat Particle.t) (k : nat) :
  (∀ o, g (f o) = g o) →
  g <$> (foldl (λ h r, alter f r h) h l !! k) = g <$> (h !! k).
Proof.
  intros Hg. revert h. induction l as [| a l IH]; intros h; simpl; [done |].
  rewrite IH. destruct (decide (a = k)) as [-> | Hne].
  - rewrite lookup_alter_eq. destruct (h !! k); simpl; by rewrite ?Hg.
  - by rewrite lookup_alter_ne.
Qed.

(** One successful step of a two-entry simulation without gravity and
    without bounds. *)
Lemma two_particle_step (h : gmap nat Particle.t) (r1 r2 : nat)
    (o1 o2 : Particle.t) (t dt : R) :
  0 < dt →
  h !! r1 = Some o1 → h !! r2 = Some o2 →
  0 < Particle.mass o1 → 0 < Particle.mass o2 →
  ∃ h' o1' o2',
    step dt (State h (mk [r1; r2] (0, 0) None t))
    = (Ok tt, State h' (mk [r1; r2] (0, 0) None (t + dt)))
    ∧ h' !! r1 = Some o1' ∧ h' !! r2 = Some o2'
    ∧ Vec.add (Particle.momentum o1') (Particle.momentum o2')
      = Vec.add (Particle.momentum o1) (Particle.momentum o2)
    ∧ Particle.kinetic_energy o1' + Particle.kinetic_energy o2'
      = Particle.kinetic_energy o1 + Particle.kinetic_energy o2.
Proof.
  intros Hdt H1 H2 Hm1 Hm2.
  set (f := Particle.update dt (0, 0)).
  set (h1 := foldl (λ h r, alter f r h) h [r1; r2]).
  set (g := λ o : Particle.t, (Particle.velocity o, Particle.mass o)).
  assert (Hg : ∀ o, g (f o) = g o).
  { intros o. unfold g, f, Particle.update, Particle.velocity, Particle.mass.
    cbn [Particle._velocity Particle._mass]. f_equal.
    destruct (Particle._velocity o) as [vx vy]. unfold Vec.add, Vec.muls. simpl.
    f_equal; ring. }
  assert (Hq : ∀ r o, h !! r = Some o → ∃ q, h1 !! r = Some q ∧ g q = g o).
  { intros r o Hr.
    pose proof (lookup_foldl_alter_invariant g f [r1; r2] h r Hg) as Hinv.
    fold h1 in Hinv. rewrite Hr in Hinv.
    destruct (h1 !! r) as [q |]; [| done]. exists q. split; [done |].
    apply (inj Some). exact Hinv. }
  destruct (Hq r1 o1 H1) as (q1 & Hq1 & [=Hv1 Hmass1]).
  destruct (Hq r2 o2 H2) as (q2 & Hq2 & [=Hv2 Hmass2]).
  destruct (collide_conserves h1 r1 r2 q1 q2 Hq1 Hq2) as (o1' & o2' & Ho1 & Ho2 & Hp & He).
  { by rewrite Hmass1. } { by rewrite Hmass2. }
  exists (collide [r1; r2] 0 1 h1), o1', o2'.
  split; [by rewrite step_ok |]. split; [done |]. split; [done |].
  unfold Particle.velocity, Particle.mass in *.
  unfold Particle.momentum, Particle.kinetic_energy in *.
  rewrite Hv1, Hv2, Hmass1, Hmass2 in *. done.
Qed.

Lemma step_state_invalid_dt (dt : R) (s : state) : dt <= 0 → (step dt s).2 = s.
Proof. intros Hdt. unfold step. by rewrite decide_True. Qed.

Lemma total_momentum_two (h : gmap nat Particle.t) (r1 r2 : nat)
    (o1 o2 : Particle.t) (self : t) :
  h !! r1 = Some o1 → h !! r2 = Some o2 → _particles self = [r1; r2] →
  total_momentum (State h self)
  = Vec.add (Particle.momentum o1) (Particle.momentum o2).
Proof.
  intros H1 H2 Hps. unfold total_momentum. cbn [this heap].
  rewrite Hps. cbn [foldl]. rewrite H1, H2.
  unfold Vec.add. cbn [fst snd]. f_equal; ring.
Qed.

Lemma total_kinetic_energy_two (h : gmap nat Particle.t) (r1 r2 : nat)
    (o1 o2 : Particle.t) (self : t) :
  h !! r1 = Some o1 → h !! r2 = Some o2 → _particles self = [r1; r2] →
  total_kinetic_energy (State h self)
  = Particle.kinetic_energy o1 + Particle.kinetic_energy o2.
Proof.
  intros H1 H2 Hps. unfold total_kinetic_energy. cbn [this heap].
  rewrite Hps. cbn [foldl]. rewrite H1, H2. ring.
Qed.

(** C2: whenever [_resolve_collision] applies its impulse to two particles
    of positive mass (distinct centres, colliding, relative velocity along
    the normal not positive), the sum [m1*v1 + m2*v2] of their momenta is
    the same after as before; and in a simulation holding two entries, with
    zero gravity and no bounds, [step] leaves [total_momentum] unchanged,
    for every [dt]. *)
Theorem momentum_conserved :
  (∀ (h : gmap nat Particle.t) r1 r2 o1 o2,
     h !! r1 = Some o1 → h !! r2 = Some o2 →
     0 < Particle.mass o1 → 0 < Particle.mass o2 →
     Particle.distance_to o1 o2 ≠ 0 →
     Particle.collides_with o1 o2 = true →
     vel_along_normal o1 o2 <= 0 →
     ∃ o1' o2',
       _resolve_collision r1 r2 h !! r1 = Some o1'
       ∧ _resolve_collision r1 r2 h !! r2 = Some o2'
       ∧ Particle.velocity o1'
         = Vec.add (Particle.velocity o1)
             (Vec.smul (impulse o1 o2 / Particle.mass o1) (unit_normal o1 o2))
       ∧ Particle.velocity o2'
         = Vec.sub (Particle.velocity o2)
             (Vec.smul (impulse o1 o2 / Particle.mass o2) (unit_normal o1 o2))
       ∧ Vec.add (Vec.smul (Particle.mass o1') (Particle.velocity o1'))
                 (Vec.smul (Particle.mass o2') (Particle.velocity o2'))
         = Vec.add (Vec.smul (Particle.mass o1) (Particle.velocity o1))
                   (Vec.smul (Particle.mass o2) (Particle.velocity o2)))
  ∧ (∀ (h : gmap nat Particle.t) r1 r2 o1 o2 t dt,
       h !! r1 = Some o1 → h !! r2 = Some o2 →
       0 < Particle.mass o1 → 0 < Particle.mass o2 →
       total_momentum (step dt (State h (mk [r1; r2] (0, 0) None t))).2
       = total_momentum (State h (mk [r1; r2] (0, 0) None t))).
Proof.
  split.
  - intros h r1 r2 o1 o2 H1 H2 Hm1 Hm2 Hd _ Hv.
    destruct (resolve_collision_conserves h r1 r2 o1 o2 H1 H2 Hm1 Hm2 Hd)
      as (o1' & o2' & Hr1 & Hr2 & Hv1 & Hv2 & Hp & _); [lra |].
    by exists o1', o2'.
  - intros h r1 r2 o1 o2 t dt H1 H2 Hm1 Hm2.
    destruct (decide (dt <= 0)) as [Hdt | Hdt].
    { by rewrite step_state_invalid_dt. }
    destruct (two_particle_step h r1 r2 o1 o2 t dt) as
      (h' & o1' & o2' & -> & Ho1 & Ho2 & Hp & _); [lra | done..|].
    cbn [snd].
    rewrite (total_momentum_two h' r1 r2 o1' o2') by done.
    by rewrite (total_momentum_two h r1 r2 o1 o2).
Qed.

(** C3: under the same conditions the sum
    [0.5*m1*|v1|^2 + 0.5*m2*|v2|^2] of the kinetic energies of the pair is
    the same after the impulse as before; and in a simulation holding two
    entries, with zero gravity and no bounds, [step] leaves
    [total_kinetic_energy] unchanged, for every [dt]. *)
Theorem kinetic_energy_conserved :
  (∀ (h : gmap nat Particle.t) r1 r2 o1 o2,
     h !! r1 = Some o1 → h !! r2 = Some o2 →
     0 < Particle.mass o1 → 0 < Particle.mass o2 →
     Particle.distance_to o1 o2 ≠ 0 →
     Particle.collides_with o1 o2 = true →
     vel_along_normal o1 o2 <= 0 →
     ∃ o1' o2',
       _resolve_collision r1 r2 h !! r1 = Some o1'
       ∧ _resolve_collision r1 r2 h !! r2 = Some o2'
       ∧ Particle.velocity o1'
         = Vec.add (Particle.velocity o1)
             (Vec.smul (impulse o1 o2 / Particle.mass o1) (unit_normal o1 o2))
       ∧ Particle.velocity o2'
         = Vec.sub (Particle.velocity o2)
             (Vec.smul (impulse o1 o2 / Particle.mass o2) (unit_normal o1 o2))
       ∧ 0.5 * Particle.mass o1' * Vec.dot (Particle.velocity o1') (Particle.velocity o1')
         + 0.5 * Particle.mass o2' * Vec.dot (Particle.velocity o2') (Particle.velocity o2')
         = 0.5 * Particle.mass o1 * Vec.dot (Particle.velocity o1) (Particle.velocity o1)
           + 0.5 * Particle.mass o2 * Vec.dot (Particle.velocity o2) (Particle.velocity o2))
  ∧ (∀ (h : gmap nat Particle.t) r1 r2 o1 o2 t dt,
       h !! r1 = Some o1 → h !! r2 = Some o2 →
       0 < Particle.mass o1 → 0 < Particle.mass o2 →
       total_kinetic_energy (step dt (State h (mk [r1; r2] (0, 0) None t))).2
       = total_kinetic_energy (State h (mk [r1; r2] (0, 0) None t))).
Proof.
  split.
  - intros h r1 r2 o1 o2 H1 H2 Hm1 Hm2 Hd _ Hv.
    destruct (resolve_collision_conserves h r1 r2 o1 o2 H1 H2 Hm1 Hm2 Hd)
      as (o1' & o2' & Hr1 & Hr2 & Hv1 & Hv2 & _ & He); [lra |].
    by exists o1', o2'.
  - intros h r1 r2 o1 o2 t dt H1 H2 Hm1 Hm2.
    destruct (decide (dt <= 0)) as [Hdt | Hdt].
    { by rewrite step_state_invalid_dt. }
    destruct (two_particle_step h r1 r2 o1 o2 t dt) as
      (h' & o1' & o2' & -> & Ho1 & Ho2 & _ & He); [lra | done..|].
    cbn [snd].
    rewrite (total_kinetic_energy_two h' r1 r2 o1' o2') by done.
    by rewrite (total_kinetic_energy_two h r1 r2 o1 o2).
Qed.

(** A head-on pair one unit apart, used to exercise the two theorems. *)
Lemma head_on_pair_facts :
  let o1 := Particle.mk (0, 0) (1, 0) 1 1 in
  let o2 := Particle.mk (1, 0) (-1, 0) 1 1 in
  Particle.distance_to o1 o2 ≠ 0
  ∧ Particle.collides_with o1 o2 = true
  ∧ vel_along_normal o1 o2 <= 0.
Proof.
  intros o1 o2.
  assert (Hdist : Particle.distance_to o1 o2 = 1).
  { unfold Particle.distance_to, Vec.norm, Vec.sub. simpl.
    match goal with |- sqrt ?x = _ => replace x with (1 * 1) by ring end.
    apply sqrt_square. lra. }
  split; [rewrite Hdist; lra |]. split.
  - unfold Particle.collides_with. rewrite Hdist. apply bool_decide_eq_true.
    simpl. lra.
  - unfold vel_along_normal, unit_normal. rewrite Hdist.
    unfold Vec.dot, Vec.sub, Vec.divs. simpl. lra.
Qed.

Lemma momentum_conserved_witness :
  let o1 := Particle.mk (0, 0) (1, 0) 1 1 in
  let o2 := Particle.mk (1, 0) (-1, 0) 1 1 in
  let h : gmap nat Particle.t := <[1%nat := o2]> {[ 0%nat := o1 ]} in
  let s := State h (mk [0; 1]%nat (0, 0) None 0) in
  (∃ o1' o2',
     _resolve_collision 0 1 h !! 0%nat = Some o1'
     ∧ _resolve_collision 0 1 h !! 1%nat = Some o2'
     ∧ Vec.add (Vec.smul (Particle.mass o1') (Particle.velocity o1'))
               (Vec.smul (Particle.mass o2') (Particle.velocity o2'))
       = Vec.add (Vec.smul 1 (1, 0)) (Vec.smul 1 (-1, 0)))
  ∧ total_momentum (step 0.1 s).2 = total_momentum s.
Proof.
  intros o1 o2 h s.
  destruct head_on_pair_facts as (Hd & Hc & Hv).
  split.
  - destruct (proj1 momentum_conserved h 0%nat 1%nat o1 o2)
      as (o1' & o2' & A & B & _ & _ & C); try done; try (simpl; lra).
    by exists o1', o2'.
  - apply (proj2 momentum_conserved h 0%nat 1%nat o1 o2 0 0.1);
      try done; simpl; lra.
Defined.

Lemma kinetic_energy_conserved_witness :
  let o1 := Particle.mk (0, 0) (1, 0) 1 1 in
  let o2 := Particle.mk (1, 0) (-1, 0) 1 1 in
  let h : gmap nat Particle.t := <[1%nat := o2]> {[ 0%nat := o1 ]} in
  let s := State h (mk [0; 1]%nat (0, 0) None 0) in
  (∃ o1' o2',
     _resolve_collision 0 1 h !! 0%nat = Some o1'
     ∧ _resolve_collision 0 1 h !! 1%nat = Some o2'
     ∧ 0.5 * Particle.mass o1' * Vec.dot (Particle.velocity o1') (Particle.velocity o1')
       + 0.5 * Particle.mass o2' * Vec.dot (Particle.velocity o2') (Particle.velocity o2')
       = 0.5 * 1 * Vec.dot (1, 0) (1, 0) + 0.5 * 1 * Vec.dot (-1, 0) (-1, 0))
  ∧ total_kinetic_energy (step 0.1 s).2 = total_kinetic_energy s.
Proof.
  intros o1 o2 h s.
  destruct head_on_pair_facts as (Hd & Hc & Hv).
  split.
  - destruct (proj1 kinetic_energy_conserved h 0%nat 1%nat o1 o2)
      as (o1' & o2' & A & B & _ & _ & C); try done; try (simpl; lra).
    by exists o1', o2'.
  - apply (proj2 kinetic_energy_conserved h 0%nat 1%nat o1 o2 0 0.1);
      try done; simpl; lra.
Defined.

(** ** What a step leaves in place *)

Lemma foldl_invariant {A B} (P : A → Prop) (f : A → B → A) (l : list B) (a : A) :
  (∀ a x, P a → P (f a x)) → P a → P (foldl f a l).
Proof.
  intros Hf. revert a. induction l as [| x l IH]; intros a Ha; simpl; auto.
Qed.

Lemma resolve_collision_dom (p1 p2 : nat) (h : gmap nat Particle.t) :
  dom (_resolve_collision p1 p2 h) = dom h.
Proof.
  unfold _resolve_collision.
  destruct (h !! p1), (h !! p2); try done.
  repeat case_decide; by rewrite ?dom_alter_L.
Qed.

Lemma collide_dom (ps : list nat) (i j : nat) (h : gmap nat Particle.t) :
  dom (collide ps i j h) = dom h.
Proof.
  unfold collide.
  destruct (ps !! i) as [p1 |], (ps !! j) as [p2 |]; try done.
  destruct (h !! p1), (h !! p2); try done.
  destruct (Particle.collides_with _ _); [apply resolve_collision_dom | done].
Qed.

(** A successful step keeps the collection, the gravity and the bounds,
    advances the clock by [dt], and keeps the set of stored objects. *)
Lemma step_frame (dt : R) (s : state) :
  0 < dt →
  step dt s = (Ok tt, (step dt s).2)
  ∧ this (step dt s).2
    = mk (_particles (this s)) (_gravity (this s)) (_bounds (this s))
         (_time (this s) + dt)
  ∧ dom (heap (step dt s).2) = dom (heap s).
Proof.
  intros Hdt. rewrite step_ok by done. cbn [snd]. split; [done |].
  unfold advance_time, _handle_particle_collisions, boundary_phase,
    _handle_boundary_collisions, update_all, set_this, set_heap.
  destruct s as [h [ps g b t]]. cbn [this heap _particles _gravity _bounds _time].
  assert (Hupd : dom (foldl (λ h particle, alter (Particle.update dt g) particle h) h ps)
                 = dom h).
  { apply (foldl_invariant (λ h', dom h' = dom h)); [| done].
    intros h' x Hh'. by rewrite dom_alter_L. }
  destruct b as [[width height] |]; cbn [this heap _particles _gravity _bounds _time];
    (split; [done |]).
  - apply (foldl_invariant (λ h', dom h' = dom h)).
    + intros h' i Hh'. apply (foldl_invariant (λ h', dom h' = dom h)); [| done].
      intros h'' j Hh''. by rewrite collide_dom.
    + apply (foldl_invariant (λ h', dom h' = dom h)); [| done].
      intros h' x Hh'. by rewrite dom_alter_L.
  - apply (foldl_invariant (λ h', dom h' = dom h)); [| done].
    intros h' i Hh'. apply (foldl_invariant (λ h', dom h' = dom h)); [| done].
    intros h'' j Hh''. by rewrite collide_dom.
Qed.

(** * Further properties of particle.py *)

Lemma sum_squares_nonneg (a b : R) : 0 <= a * a + b * b.
Proof. nra. Qed.

(** X1: [distance_to] is symmetric and never negative, and it is zero
    when the two centres coincide.  (The converse holds for real numbers
    only: the float64 squares of a tiny difference underflow to 0.) *)
Theorem distance_to_metric (p q : Particle.t) :
  Particle.distance_to p q = Particle.distance_to q p
  ∧ 0 <= Particle.distance_to p q
  ∧ (Particle.position p = Particle.position q → Particle.distance_to p q = 0).
Proof.
  unfold Particle.distance_to, Particle.position, Vec.norm, Vec.sub.
  destruct (Particle._position p) as [x1 y1], (Particle._position q) as [x2 y2].
  cbn [fst snd]. split; [f_equal; ring |]. split; [apply sqrt_pos |].
  intros [= -> ->].
  replace ((x2 - x2) * (x2 - x2) + (y2 - y2) * (y2 - y2)) with 0 by ring.
  apply sqrt_0.
Qed.

Lemma distance_to_metric_witness :
  Particle.distance_to (Particle.mk (1, 2) (0, 0) 1 1) (Particle.mk (1, 2) (3, 4) 2 1)
  = 0.
Proof.
  apply (distance_to_metric (Particle.mk (1, 2) (0, 0) 1 1)
                            (Particle.mk (1, 2) (3, 4) 2 1)).
  reflexivity.
Defined.

(** X2: [collides_with] does not depend on the order of the two particles,
    and a particle collides with itself exactly when its radius is
    positive. *)
Theorem collides_with_sym (p q : Particle.t) :
  Particle.collides_with p q = Particle.collides_with q p
  ∧ (Particle.collides_with p p = true ↔ 0 < Particle.radius p).
Proof.
  split.
  - unfold Particle.collides_with.
    replace (Particle.distance_to q p) with (Particle.distance_to p q).
    + apply bool_decide_ext. lra.
    + unfold Particle.distance_to, Vec.norm, Vec.sub. cbn [fst snd]. f_equal. ring.
  - unfold Particle.collides_with, Particle.radius. rewrite distance_to_self.
    rewrite bool_decide_eq_true. lra.
Qed.

(** X3: for a positive mass the kinetic energy is never negative, and it is
    zero when the particle is at rest.  (The converse holds for real
    numbers only: the float64 square of a tiny speed underflows to 0.) *)
Theorem kinetic_energy_nonneg (p : Particle.t) :
  0 < Particle.mass p →
  0 <= Particle.kinetic_energy p
  ∧ (Particle.velocity p = (0, 0) → Particle.kinetic_energy p = 0).
Proof.
  unfold Particle.mass, Particle.kinetic_energy, Particle.velocity, Vec.dot.
  destruct (Particle._velocity p) as [vx vy]. cbn [fst snd].
  set (m := Particle._mass p). intros Hm. rewrite half_decimal.
  pose proof (sum_squares_nonneg vx vy) as Hsq.
  split.
  - apply Rmult_le_pos; [| done]. apply Rmult_le_pos; lra.
  - intros [= -> ->]. ring.
Qed.

Lemma kinetic_energy_nonneg_witness :
  0 <= Particle.kinetic_energy (Particle.mk (0, 0) (3, 4) 2 1).
Proof.
  apply (kinetic_energy_nonneg (Particle.mk (0, 0) (3, 4) 2 1)). simpl. lra.
Defined.

(** X4: [update] keeps mass and radius.  Two consecutive updates with the
    same acceleration reach the velocity of one update over the summed
    time, but a position that is short of it by [acceleration * dt1 * dt2]:
    the integrator depends on the step size unless the acceleration is
    zero. *)
Theorem update_split (dt1 dt2 : R) (acc : Vec.t) (p : Particle.t) :
  let two := Particle.update dt2 acc (Particle.update dt1 acc p) in
  let one := Particle.update (dt1 + dt2) acc p in
  Particle.mass two = Particle.mass p
  ∧ Particle.radius two = Particle.radius p
  ∧ Particle.velocity two = Particle.velocity one
  ∧ Particle.position two
    = Vec.sub (Particle.position one) (Vec.muls acc (dt1 * dt2)).
Proof.
  unfold Particle.update, Particle.mass, Particle.radius, Particle.velocity,
    Particle.position, Vec.add, Vec.sub, Vec.muls.
  destruct p as [[x y] [vx vy] m rad], acc as [ax ay]. cbn.
  repeat split; f_equal; ring.
Qed.

(** * Further properties of simulation.py *)

(** ** The collection *)

(** X5: adding a particle and then removing it succeeds.  When the
    particle was not in the collection the simulation is back in its
    former state; when it was, the entry that disappears is the earliest
    one, so the particle now stands at the end of the collection. *)
Theorem add_then_remove (p : nat) (s : state) :
  (p ∉ _particles (this s) →
     (add_particle p ;; remove_particle p) s = (Ok true, s))
  ∧ (∀ l1 l2, _particles (this s) = l1 ++ p :: l2 → p ∉ l1 →
       (add_particle p ;; remove_particle p) s
       = (Ok true,
          State (heap s) (mk (l1 ++ l2 ++ [p]) (_gravity (this s))
                             (_bounds (this s)) (_time (this s))))).
Proof.
  destruct s as [h [ps g b t]]. cbn [this heap _particles _gravity _bounds _time].
  unfold mbind, M_bind, add_particle, remove_particle, modify,
    try_except_ValueError, set_this.
  cbn [this heap _particles _gravity _bounds _time]. split.
  - intros Hnot.
    replace (ps ++ [p]) with (ps ++ p :: []) by done.
    rewrite list_remove_first by done. by rewrite app_nil_r.
  - intros l1 l2 -> Hnot.
    replace ((l1 ++ p :: l2) ++ [p]) with (l1 ++ p :: (l2 ++ [p]))
      by by rewrite <- app_assoc.
    rewrite list_remove_first by done. done.
Qed.

Lemma add_then_remove_witness :
  let s := State ∅ (mk [0; 1]%nat (0, 0) None 0) in
  (add_particle 2 ;; remove_particle 2) s = (Ok true, s)
  ∧ (add_particle 0 ;; remove_particle 0) s
    = (Ok true, State ∅ (mk [1; 0]%nat (0, 0) None 0)).
Proof.
  intros s. split.
  - apply (proj1 (add_then_remove 2 s)). simpl.
    intros Hin. repeat (apply elem_of_cons in Hin as [Hin | Hin]; [done |]).
    by apply elem_of_nil in Hin.
  - apply (proj2 (add_then_remove 0 s) [] [1%nat]); [done |].
    apply not_elem_of_nil.
Defined.

Lemma foldl_momentum_acc (h : gmap nat Particle.t) (ps : list nat) (a : Vec.t) :
  foldl (λ acc p, match h !! p with
                  | Some o => Vec.add acc (Particle.momentum o)
                  | None => acc
                  end) a ps
  = Vec.add a (foldl (λ acc p, match h !! p with
                               | Some o => Vec.add acc (Particle.momentum o)
                               | None => acc
                               end) (0, 0) ps).
Proof.
  revert a. induction ps as [| p ps IH]; intros a; cbn [foldl].
  - unfold Vec.add. destruct a. cbn [fst snd]. f_equal; ring.
  - rewrite IH. rewrite (IH (match h !! p with Some o => _ | None => _ end)).
    destruct (h !! p) as [o |]; unfold Vec.add; cbn [fst snd]; f_equal; ring.
Qed.

Lemma total_momentum_fold (s : state) :
  total_momentum s
  = foldl (λ acc p, match heap s !! p with
                    | Some o => Vec.add acc (Particle.momentum o)
                    | None => acc
                    end) (0, 0) (_particles (this s)).
Proof. unfold total_momentum. by destruct (_particles (this s)). Qed.

(** X6: adding a stored particle raises the total momentum by the
    particle's momentum and the total kinetic energy by its kinetic
    energy, whatever the collection held before (the particle itself
    included). *)
Theorem add_particle_totals (p : nat) (o : Particle.t) (s : state) :
  heap s !! p = Some o →
  total_momentum (add_particle p s).2
  = Vec.add (total_momentum s) (Particle.momentum o)
  ∧ total_kinetic_energy (add_particle p s).2
    = total_kinetic_energy s + Particle.kinetic_energy o.
Proof.
  intros Hp. split.
  - rewrite !total_momentum_fold. unfold add_particle, modify, set_this.
    cbn [snd this heap _particles]. rewrite foldl_app. cbn [foldl]. by rewrite Hp.
  - unfold total_kinetic_energy, add_particle, modify, set_this.
    cbn [snd this heap _particles]. rewrite foldl_app. cbn [foldl]. by rewrite Hp.
Qed.

Lemma add_particle_totals_witness :
  let o := Particle.mk (0, 0) (2, 0) 3 1 in
  let s := State {[ 0%nat := o ]} (Simulation.__init__ None None) in
  total_momentum (add_particle 0 s).2 = Vec.add (total_momentum s) (Particle.momentum o)
  ∧ total_kinetic_energy (add_particle 0 s).2
    = total_kinetic_energy s + Particle.kinetic_energy o.
Proof.
  intros o s. apply add_particle_totals. apply lookup_singleton_eq.
Defined.

(** X7: the total kinetic energy is never negative when every stored
    particle has a positive mass, and an empty collection has total
    kinetic energy 0 and total momentum (0,0). *)
Theorem total_kinetic_energy_nonneg (s : state) :
  (∀ r o, heap s !! r = Some o → 0 < Particle.mass o) →
  0 <= total_kinetic_energy s
  ∧ (_particles (this s) = [] →
     total_kinetic_energy s = 0 ∧ total_momentum s = (0, 0)).
Proof.
  intros Hmass. split.
  - unfold total_kinetic_energy.
    apply (foldl_invariant (λ acc, 0 <= acc)); [| lra].
    intros acc r Hacc. destruct (heap s !! r) as [o |] eqn:Ho; [| done].
    assert (0 <= Particle.kinetic_energy o); [| lra].
    unfold Particle.kinetic_energy, Vec.dot. rewrite half_decimal.
    specialize (Hmass r o Ho). unfold Particle.mass in Hmass.
    apply Rmult_le_pos; [apply Rmult_le_pos; lra | apply sum_squares_nonneg].
  - intros Hnil. unfold total_kinetic_energy, total_momentum. by rewrite Hnil.
Qed.

Lemma total_kinetic_energy_nonneg_witness :
  0 <= total_kinetic_energy
         (State {[ 0%nat := Particle.mk (0, 0) (3, 4) 2 1 ]}
                (mk [0; 0]%nat (0, 0) None 0)).
Proof.
  apply total_kinetic_energy_nonneg.
  intros r o Ho. cbn [heap] in Ho.
  apply lookup_singleton_Some in Ho as [_ <-]. simpl. lra.
Defined.

(** ** Invariants of a step *)

Lemma foldl_invariant_in {A B} (P : A → Prop) (f : A → B → A) (l : list B) (a : A) :
  (∀ a x, x ∈ l → P a → P (f a x)) → P a → P (foldl f a l).
Proof.
  revert a. induction l as [| x l IH]; intros a Hf Ha; simpl; [done |].
  apply IH.
  - intros a' y Hy. apply Hf. by apply elem_of_cons; right.
  - apply Hf; [by apply elem_of_cons; left | done].
Qed.

Lemma alter_keeps {B} (g : Particle.t → B) (f : Particle.t → Particle.t)
    (r k : nat) (h : gmap nat Particle.t) :
  (∀ o, g (f o) = g o) → g <$> alter f r h !! k = g <$> h !! k.
Proof.
  intros Hg. destruct (decide (r = k)) as [-> | Hne].
  - rewrite lookup_alter_eq. destruct (h !! k); simpl; by rewrite ?Hg.
  - by rewrite lookup_alter_ne.
Qed.

Lemma resolve_collision_keeps {B} (g : Particle.t → B) (p1 p2 k : nat)
    (h : gmap nat Particle.t) :
  (∀ v o, g (Particle.set_velocity v o) = g o) →
  (∀ v o, g (Particle.set_position v o) = g o) →
  g <$> _resolve_collision p1 p2 h !! k = g <$> h !! k.
Proof.
  intros Hvel Hpos. unfold _resolve_collision.
  destruct (h !! p1), (h !! p2); try done.
  repeat case_decide; try done; by rewrite !alter_keeps.
Qed.

Lemma collide_keeps {B} (g : Particle.t → B) (ps : list nat) (i j k : nat)
    (h : gmap nat Particle.t) :
  (∀ v o, g (Particle.set_velocity v o) = g o) →
  (∀ v o, g (Particle.set_position v o) = g o) →
  g <$> collide ps i j h !! k = g <$> h !! k.
Proof.
  intros Hvel Hpos. unfold collide.
  destruct (ps !! i) as [p1 |], (ps !! j) as [p2 |]; try done.
  destruct (h !! p1), (h !! p2); try done.
  destruct (Particle.collides_with _ _); [| done].
  by apply resolve_collision_keeps.
Qed.

(** Any attribute that neither [update], nor the boundary reflection, nor
    the two setters change is the same after a step as before. *)
Lemma step_keeps {B} (g : Particle.t → B) (dt : R) (s : state) (k : nat) :
  (∀ a o, g (Particle.update dt a o) = g o) →
  (∀ w ht o, g (reflect w ht o) = g o) →
  (∀ v o, g (Particle.set_velocity v o) = g o) →
  (∀ v o, g (Particle.set_position v o) = g o) →
  g <$> heap (step dt s).2 !! k = g <$> heap s !! k.
Proof.
  intros Hupd Hrefl Hvel Hpos.
  destruct (decide (dt <= 0)) as [Hdt | Hdt].
  { unfold step. by rewrite decide_True. }
  rewrite step_ok by lra. cbn [snd].
  unfold advance_time, _handle_particle_collisions, boundary_phase,
    _handle_boundary_collisions, update_all, set_this, set_heap.
  destruct s as [h [ps g0 b t]]. cbn [this heap _particles _gravity _bounds _time].
  assert (Hu : g <$> foldl (λ h particle, alter (Particle.update dt g0) particle h) h ps !! k
               = g <$> h !! k).
  { apply (foldl_invariant (λ h', g <$> h' !! k = g <$> h !! k)); [| done].
    intros h' x Hh'. by rewrite alter_keeps. }
  assert (Hc : ∀ h0 : gmap nat Particle.t,
             g <$> h0 !! k = g <$> h !! k →
             g <$> foldl (λ h i, foldl (λ h j, collide ps i j h) h
                                   (seq (i + 1) (length ps - (i + 1))))
                     h0 (seq 0 (length ps)) !! k
             = g <$> h !! k).
  { intros h0 Hh0.
    apply (foldl_invariant (λ h', g <$> h' !! k = g <$> h !! k)); [| done].
    intros h' i Hh'.
    apply (foldl_invariant (λ h', g <$> h' !! k = g <$> h !! k)); [| done].
    intros h'' j Hh''. by rewrite collide_keeps. }
  destruct b as [[width height] |]; cbn [this heap _particles _gravity _bounds _time];
    apply Hc; [| done].
  apply (foldl_invariant (λ h', g <$> h' !! k = g <$> h !! k)); [| done].
  intros h' x Hh'. by rewrite alter_keeps.
Qed.

(** X8: a successful step keeps the collection, the gravity and the
    bounds, advances the clock by exactly [dt], neither creates nor
    deletes particle objects, and never changes the mass or the radius of
    any particle. *)
Theorem step_invariants (dt : R) (s : state) :
  0 < dt →
  ∃ s', step dt s = (Ok tt, s')
    ∧ this s' = mk (_particles (this s)) (_gravity (this s)) (_bounds (this s))
                   (_time (this s) + dt)
    ∧ dom (heap s') = dom (heap s)
    ∧ ∀ r o, heap s !! r = Some o →
        ∃ o', heap s' !! r = Some o'
          ∧ Particle.mass o' = Particle.mass o
          ∧ Particle.radius o' = Particle.radius o.
Proof.
  intros Hdt. destruct (step_frame dt s Hdt) as (Hstep & Hthis & Hdom).
  exists (step dt s).2. split; [done |]. split; [done |]. split; [done |].
  intros r o Ho.
  pose proof (step_keeps (λ o, (Particle.mass o, Particle.radius o)) dt s r) as Hk.
  rewrite Ho in Hk. cbn [fmap option_fmap option_map] in Hk.
  destruct (heap (step dt s).2 !! r) as [o' |] eqn:Ho'.
  - exists o'. split; [done |].
    assert (Heq : (Particle.mass o', Particle.radius o')
                  = (Particle.mass o, Particle.radius o)).
    { apply (inj Some). apply Hk; try done.
      intros w ht o0. by destruct (reflect_fields w ht o0) as [-> ->]. }
    by injection Heq.
  - exfalso. assert (Hnone : None = Some (Particle.mass o, Particle.radius o)); [| done].
    apply Hk; try done.
    intros w ht o0. by destruct (reflect_fields w ht o0) as [-> ->].
Qed.

Lemma step_invariants_witness :
  let s := State {[ 0%nat := Particle.mk (0, 0) (1, 0) 2 3 ]}
                 (mk [0%nat] (0, -9.81) (Some (10, 10)) 0) in
  ∃ s', step 0.1 s = (Ok tt, s')
    ∧ this s' = mk [0%nat] (0, -9.81) (Some (10, 10)) (0 + 0.1).
Proof.
  intros s. destruct (step_invariants 0.1 s) as (s' & Hstep & Hthis & _); [lra |].
  exists s'. by split.
Defined.

Lemma resolve_collision_other (p1 p2 r : nat) (h : gmap nat Particle.t) :
  r ≠ p1 → r ≠ p2 → _resolve_collision p1 p2 h !! r = h !! r.
Proof.
  intros H1 H2. unfold _resolve_collision.
  destruct (h !! p1), (h !! p2); try done.
  repeat case_decide; try done; by rewrite !lookup_alter_ne.
Qed.

Lemma collide_other (ps : list nat) (i j r : nat) (h : gmap nat Particle.t) :
  r ∉ ps → collide ps i j h !! r = h !! r.
Proof.
  intros Hr. unfold collide.
  destruct (ps !! i) as [p1 |] eqn:Hi, (ps !! j) as [p2 |] eqn:Hj; try done.
  destruct (h !! p1), (h !! p2); try done.
  destruct (Particle.collides_with _ _); [| done].
  apply list_elem_of_lookup_2 in Hi, Hj.
  apply resolve_collision_other; intros ->; done.
Qed.

(** X9: a step, successful or not, never touches a particle object that
    is not in the collection. *)
Theorem step_untouched (dt : R) (s : state) (r : nat) :
  r ∉ _particles (this s) →
  heap (step dt s).2 !! r = heap s !! r.
Proof.
  intros Hr.
  destruct (decide (dt <= 0)) as [Hdt | Hdt].
  { unfold step. by rewrite decide_True. }
  rewrite step_ok by lra. cbn [snd].
  unfold advance_time, _handle_particle_collisions, boundary_phase,
    _handle_boundary_collisions, update_all, set_this, set_heap.
  destruct s as [h [ps g0 b t]].
  cbn [this heap _particles _gravity _bounds _time] in *.
  assert (Ha : ∀ (f : Particle.t → Particle.t) (h0 : gmap nat Particle.t),
             h0 !! r = h !! r →
             foldl (λ h particle, alter f particle h) h0 ps !! r = h !! r).
  { intros f h0 Hh0.
    apply (foldl_invariant_in (λ h', h' !! r = h !! r)); [| done].
    intros h' x Hx Hh'. rewrite lookup_alter_ne; [done | by intros ->]. }
  assert (Hc : ∀ h0 : gmap nat Particle.t,
             h0 !! r = h !! r →
             foldl (λ h i, foldl (λ h j, collide ps i j h) h
                             (seq (i + 1) (length ps - (i + 1))))
                   h0 (seq 0 (length ps)) !! r
             = h !! r).
  { intros h0 Hh0.
    apply (foldl_invariant (λ h', h' !! r = h !! r)); [| done].
    intros h' i Hh'.
    apply (foldl_invariant (λ h', h' !! r = h !! r)); [| done].
    intros h'' j Hh''. by rewrite collide_other. }
  destruct b as [[width height] |]; cbn [this heap _particles _gravity _bounds _time];
    apply Hc; [| by apply Ha].
  apply Ha. by apply Ha.
Qed.

Lemma step_untouched_witness :
  let o := Particle.mk (0, 0) (1, 0) 1 1 in
  let s := State (<[1%nat := o]> {[ 0%nat := o ]}) (mk [0%nat] (0, -9.81) None 0) in
  heap (step 0.1 s).2 !! 1%nat = Some o.
Proof.
  intros o s. rewrite (step_untouched 0.1 s 1); [reflexivity |].
  simpl. intros Hin. apply list_elem_of_singleton in Hin. discriminate.
Defined.

(** ** Walls *)

Lemma axis_tests_inside (w r x v : R) :
  2 * r <= w → r <= (axis_tests w r (x, v)).1 <= w - r.
Proof.
  intros Hfit. unfold axis_tests. cbn [fst snd].
  repeat case_decide; cbn [fst snd] in *; lra.
Qed.

Lemma axis_tests_abs (w r x v : R) : Rabs (axis_tests w r (x, v)).2 = Rabs v.
Proof.
  unfold axis_tests. cbn [fst snd].
  repeat case_decide; cbn [fst snd]; by rewrite ?Rabs_Ropp, ?Rabs_Rabsolu.
Qed.

Lemma reflect_inside (width height : R) (p : Particle.t) :
  2 * Particle.radius p <= width → 2 * Particle.radius p <= height →
  Particle.radius p <= (Particle.position (reflect width height p)).1
                    <= width - Particle.radius p
  ∧ Particle.radius p <= (Particle.position (reflect width height p)).2
                      <= height - Particle.radius p.
Proof.
  intros Hw Hh.
  pose proof (f_equal fst (reflect_x width height p)) as Hx.
  pose proof (f_equal fst (reflect_y width height p)) as Hy.
  cbn [fst] in Hx, Hy. rewrite Hx, Hy.
  split; by apply axis_tests_inside.
Qed.

Lemma reflect_speed (width height : R) (p : Particle.t) :
  Rabs (Particle.velocity (reflect width height p)).1 = Rabs (Particle.velocity p).1
  ∧ Rabs (Particle.velocity (reflect width height p)).2 = Rabs (Particle.velocity p).2.
Proof.
  pose proof (f_equal snd (reflect_x width height p)) as Hx.
  pose proof (f_equal snd (reflect_y width height p)) as Hy.
  cbn [snd] in Hx, Hy. rewrite Hx, Hy.
  split; apply axis_tests_abs.
Qed.

Lemma square_abs (a b : R) : Rabs a = Rabs b → a * a = b * b.
Proof.
  intros H. pose proof (Rsqr_abs a) as Ha. pose proof (Rsqr_abs b) as Hb.
  unfold Rsqr in Ha, Hb. by rewrite Ha, Hb, H.
Qed.

Lemma reflect_kinetic_energy (width height : R) (p : Particle.t) :
  Particle.kinetic_energy (reflect width height p) = Particle.kinetic_energy p.
Proof.
  destruct (reflect_speed width height p) as [Hx Hy].
  destruct (reflect_fields width height p) as [Hm _].
  unfold Particle.kinetic_energy, Vec.dot, Particle.velocity, Particle.mass in *.
  rewrite Hm. by rewrite (square_abs _ _ Hx), (square_abs _ _ Hy).
Qed.

Lemma total_kinetic_energy_ext (h h' : gmap nat Particle.t) (self : t) :
  (∀ r, Particle.kinetic_energy <$> h' !! r = Particle.kinetic_energy <$> h !! r) →
  total_kinetic_energy (State h' self) = total_kinetic_energy (State h self).
Proof.
  intros Hke. unfold total_kinetic_energy. cbn [heap this].
  generalize 0. induction (_particles self) as [| r ps IH]; intros acc; [done |].
  cbn [foldl]. specialize (Hke r).
  destruct (h' !! r) as [o' |], (h !! r) as [o |]; try done.
  cbn in Hke. injection Hke as ->. apply IH.
Qed.

(** X10: with bounds set, the boundary handler leaves every particle of
    the collection that fits between the walls ([2 * radius] at most the
    width and the height) inside the box:
    [radius <= x <= width - radius] and [radius <= y <= height - radius]. *)
Theorem boundary_containment (width height : R) (s : state) (r : nat) (p : Particle.t) :
  _bounds (this s) = Some (width, height) →
  r ∈ _particles (this s) →
  heap s !! r = Some p →
  2 * Particle.radius p <= width → 2 * Particle.radius p <= height →
  ∃ p', heap (_handle_boundary_collisions s) !! r = Some p'
    ∧ Particle.radius p <= (Particle.position p').1 <= width - Particle.radius p
    ∧ Particle.radius p <= (Particle.position p').2 <= height - Particle.radius p.
Proof.
  intros Hb Hr Hp Hw Hh. exists (reflect width height p). split.
  - unfold _handle_boundary_collisions. rewrite Hb. cbn [set_heap heap].
    rewrite foldl_alter_idem by apply reflect_idem.
    by rewrite decide_True, Hp.
  - by apply reflect_inside.
Qed.

Lemma boundary_containment_witness :
  let p := Particle.mk (-3, 12) (-1, 2) 1 1 in
  let s := State {[ 0%nat := p ]} (mk [0%nat] (0, 0) (Some (10, 10)) 0) in
  ∃ p', heap (_handle_boundary_collisions s) !! 0%nat = Some p'
    ∧ 1 <= (Particle.position p').1 <= 10 - 1
    ∧ 1 <= (Particle.position p').2 <= 10 - 1.
Proof.
  intros p s. apply (boundary_containment 10 10 s 0 p).
  - reflexivity.
  - apply list_elem_of_singleton. reflexivity.
  - apply lookup_singleton_eq.
  - simpl. lra.
  - simpl. lra.
Defined.

(** X11: the walls are perfectly elastic: the boundary handler keeps the
    magnitude of both velocity components of every particle, and therefore
    the total kinetic energy of the simulation. *)
Theorem boundary_keeps_energy (s : state) :
  total_kinetic_energy (_handle_boundary_collisions s) = total_kinetic_energy s
  ∧ ∀ r o, heap s !! r = Some o →
      ∃ o', heap (_handle_boundary_collisions s) !! r = Some o'
        ∧ Rabs (Particle.velocity o').1 = Rabs (Particle.velocity o).1
        ∧ Rabs (Particle.velocity o').2 = Rabs (Particle.velocity o).2.
Proof.
  unfold _handle_boundary_collisions.
  destruct (_bounds (this s)) as [[width height] |].
  - split.
    + destruct s as [h self]. cbn [set_heap heap this].
      apply total_kinetic_energy_ext. intros r.
      apply lookup_foldl_alter_invariant. apply reflect_kinetic_energy.
    + intros r o Ho. cbn [set_heap heap].
      pose proof (lookup_foldl_alter_invariant
                    (λ o, (Rabs (Particle.velocity o).1, Rabs (Particle.velocity o).2))
                    (reflect width height) (_particles (this s)) (heap s) r) as Hk.
      rewrite Ho in Hk.
      destruct (foldl _ _ _ !! r) as [o' |].
      * exists o'. split; [done |].
        assert (Heq : (Rabs (Particle.velocity o').1, Rabs (Particle.velocity o').2)
                      = (Rabs (Particle.velocity o).1, Rabs (Particle.velocity o).2)).
        { apply (inj Some). apply Hk. intros o0.
          by destruct (reflect_speed width height o0) as [-> ->]. }
        by injection Heq.
      * exfalso.
        assert (Hnone : None = Some (Rabs (Particle.velocity o).1,
                                     Rabs (Particle.velocity o).2)); [| done].
        apply Hk. intros o0. by destruct (reflect_speed width height o0) as [-> ->].
  - split; [done |]. intros r o Ho. by exists o.
Qed.

(** ** A simulation holding a single particle *)

Lemma single_step (h : gmap nat Particle.t) (r : nat) (p : Particle.t)
    (g : Vec.t) (b : option (R * R)) (t dt : R) :
  0 < dt → h !! r = Some p →
  ∃ h', step dt (State h (mk [r] g b t)) = (Ok tt, State h' (mk [r] g b (t + dt)))
    ∧ h' !! r = Some (match b with
                      | Some (width, height) =>
                          reflect width height (Particle.update dt g p)
                      | None => Particle.update dt g p
                      end).
Proof.
  intros Hdt Hp. rewrite step_ok by done.
  destruct b as [[width height] |].
  - exists (alter (reflect width height) r (alter (Particle.update dt g) r h)).
    split; [reflexivity |]. by rewrite !lookup_alter_eq, Hp.
  - exists (alter (Particle.update dt g) r h).
    split; [reflexivity |]. by rewrite lookup_alter_eq, Hp.
Qed.

(** X12: in a bounded simulation that holds one particle fitting between
    the walls, the particle is inside the box after every successful step,
    wherever it started and whatever the gravity and the time step. *)
Theorem single_particle_stays_inside (n : nat) (h : gmap nat Particle.t) (r : nat)
    (p : Particle.t) (g : Vec.t) (width height t dt : R) :
  0 < dt → h !! r = Some p →
  2 * Particle.radius p <= width → 2 * Particle.radius p <= height →
  ∃ p', heap (iter_step (S n) dt (State h (mk [r] g (Some (width, height)) t))) !! r
        = Some p'
    ∧ Particle.radius p' = Particle.radius p
    ∧ Particle.radius p <= (Particle.position p').1 <= width - Particle.radius p
    ∧ Particle.radius p <= (Particle.position p').2 <= height - Particle.radius p.
Proof.
  intros Hdt. revert h p t. induction n as [| n IH]; intros h p t Hp Hw Hh;
    destruct (single_step h r p g (Some (width, height)) t dt Hdt Hp)
      as (h' & Hstep & Hp');
    set (p1 := reflect width height (Particle.update dt g p)) in *;
    assert (Hrad : Particle.radius p1 = Particle.radius p)
      by (unfold p1; by destruct (reflect_fields width height (Particle.update dt g p))
            as [_ ->]).
  - exists p1. cbn [iter_step]. rewrite Hstep. cbn [snd heap].
    split; [done |]. split; [done |].
    pose proof (reflect_inside width height (Particle.update dt g p)) as Hin.
    fold p1 in Hin. apply Hin; done.
  - change (iter_step (S (S n)) dt (State h (mk [r] g (Some (width, height)) t)))
      with (iter_step (S n) dt
              (step dt (State h (mk [r] g (Some (width, height)) t))).2).
    rewrite Hstep. cbn [snd].
    destruct (IH h' p1 (t + dt) Hp') as (p' & Hlook & Hr' & Hx & Hy);
      [by rewrite Hrad.. |].
    exists p'. rewrite Hrad in *. done.
Qed.

Lemma single_particle_stays_inside_witness :
  let p := Particle.mk (5, 5) (40, -70) 1 1 in
  ∃ p', heap (iter_step 3 0.5 (State {[ 0%nat := p ]}
                                     (mk [0%nat] (0, -9.81) (Some (10, 10)) 0))) !! 0%nat
        = Some p'
    ∧ Particle.radius p' = 1
    ∧ 1 <= (Particle.position p').1 <= 10 - 1
    ∧ 1 <= (Particle.position p').2 <= 10 - 1.
Proof.
  intros p.
  apply (single_particle_stays_inside 2 {[ 0%nat := p ]} 0 p (0, -9.81) 10 10 0 0.5).
  - lra.
  - apply lookup_singleton_eq.
  - simpl. lra.
  - simpl. lra.
Defined.

(** X13: without bounds, a single particle follows the closed form of the
    semi-implicit Euler scheme: after [n] steps its velocity is
    [v + n*dt*g], its position is [x + n*dt*v + n*(n+1)/2 * dt^2 * g], and
    the clock has advanced by [n*dt]; mass and radius are unchanged. *)
Theorem single_particle_free_fall (n : nat) (h : gmap nat Particle.t) (r : nat)
    (p : Particle.t) (g : Vec.t) (t dt : R) :
  0 < dt → h !! r = Some p →
  ∃ h', iter_step n dt (State h (mk [r] g None t))
        = State h' (mk [r] g None (t + INR n * dt))
    ∧ h' !! r
      = Some (Particle.mk
                (Vec.add (Vec.add (Particle.position p)
                                  (Vec.muls (Particle.velocity p) (INR n * dt)))
                         (Vec.muls g (INR n * (INR n + 1) / 2 * (dt * dt))))
                (Vec.add (Particle.velocity p) (Vec.muls g (INR n * dt)))
                (Particle.mass p) (Particle.radius p)).
Proof.
  intros Hdt. revert h p t. induction n as [| n IH]; intros h p t Hp.
  - exists h. cbn [iter_step]. split.
    + do 2 f_equal. simpl. lra.
    + rewrite Hp. f_equal. destruct p as [[x y] [vx vy] m rad], g as [gx gy].
      unfold Vec.add, Vec.muls, Particle.position, Particle.velocity,
        Particle.mass, Particle.radius.
      cbn [Particle._position Particle._velocity Particle._mass Particle._radius
           fst snd INR].
      f_equal; f_equal; unfold Rdiv; ring.
  - destruct (single_step h r p g None t dt Hdt Hp) as (h1 & Hstep & Hp1).
    cbn [iter_step]. rewrite Hstep. cbn [snd].
    destruct (IH h1 (Particle.update dt g p) (t + dt) Hp1) as (h' & Hiter & Hp').
    exists h'. rewrite Hiter. split.
    + do 2 f_equal. rewrite S_INR. ring.
    + rewrite Hp'. f_equal. rewrite S_INR.
      destruct p as [[x y] [vx vy] m rad], g as [gx gy].
      unfold Particle.update, Vec.add, Vec.muls, Particle.position,
        Particle.velocity, Particle.mass, Particle.radius.
      cbn [Particle._position Particle._velocity Particle._mass Particle._radius
           fst snd].
      f_equal; f_equal; field.
Qed.

Lemma single_particle_free_fall_witness :
  let p := Particle.mk (0, 100) (0, 0) 1 1 in
  ∃ h', iter_step 2 1 (State {[ 0%nat := p ]} (mk [0%nat] (0, -10) None 0))
        = State h' (mk [0%nat] (0, -10) None (0 + INR 2 * 1))
    ∧ ∃ p', h' !! 0%nat = Some p'
        ∧ Particle.velocity p' = (0, -20) ∧ Particle.position p' = (0, 70).
Proof.
  intros p.
  destruct (single_particle_free_fall 2 {[ 0%nat := p ]} 0 p (0, -10) 0 1)
    as (h' & Hiter & Hp'); [lra | apply lookup_singleton_eq |].
  exists h'. split; [exact Hiter |]. eexists. split; [exact Hp' |].
  unfold Particle.velocity, Particle.position, Vec.add, Vec.muls. simpl.
  split; f_equal; lra.
Defined.

(** ** Collisions between particles *)



(** X15: when the impulse is applied to two particles of positive mass,
    the relative velocity along the collision normal is exactly reversed;
    for equal masses the two particles exchange their velocity components
    along the normal. *)
Theorem resolve_collision_reverses (h : gmap nat Particle.t) (r1 r2 : nat)
    (o1 o2 : Particle.t) :
  h !! r1 = Some o1 → h !! r2 = Some o2 →
  0 < Particle.mass o1 → 0 < Particle.mass o2 →
  Particle.distance_to o1 o2 ≠ 0 →
  vel_along_normal o1 o2 <= 0 →
  ∃ o1' o2',
    _resolve_collision r1 r2 h !! r1 = Some o1'
    ∧ _resolve_collision r1 r2 h !! r2 = Some o2'
    ∧ Vec.dot (Vec.sub (Particle.velocity o1') (Particle.velocity o2'))
              (unit_normal o1 o2)
      = - vel_along_normal o1 o2
    ∧ (Particle.mass o1 = Particle.mass o2 →
       Particle.velocity o1'
       = Vec.sub (Particle.velocity o1)
           (Vec.smul (vel_along_normal o1 o2) (unit_normal o1 o2))
       ∧ Particle.velocity o2'
         = Vec.add (Particle.velocity o2)
             (Vec.smul (vel_along_normal o1 o2) (unit_normal o1 o2))).
Proof.
  intros H1 H2 Hm1 Hm2 Hd Hv.
  destruct (resolve_collision_conserves h r1 r2 o1 o2 H1 H2 Hm1 Hm2 Hd)
    as (o1' & o2' & Hr1 & Hr2 & Hv1 & Hv2 & _ & _); [lra |].
  exists o1', o2'. split; [done |]. split; [done |].
  rewrite Hv1, Hv2.
  pose proof (unit_normal_unit o1 o2 Hd) as Hunit.
  unfold impulse.
  set (vn := vel_along_normal o1 o2). set (n := unit_normal o1 o2) in *.
  set (m1 := Particle.mass o1) in *. set (m2 := Particle.mass o2) in *.
  assert (Hk : 1 / m1 + 1 / m2 ≠ 0).
  { assert (0 < 1 / m1) by (apply Rdiv_lt_0_compat; lra).
    assert (0 < 1 / m2) by (apply Rdiv_lt_0_compat; lra). lra. }
  assert (Hvn : vn = Vec.dot (Vec.sub (Particle.velocity o1) (Particle.velocity o2)) n)
    by done.
  clearbody vn n m1 m2.
  destruct (Particle.velocity o1) as [v1x v1y], (Particle.velocity o2) as [v2x v2y],
    n as [nx ny].
  unfold Vec.dot, Vec.sub, Vec.add, Vec.smul in *. cbn [fst snd] in *. split.
  - transitivity (((v1x - v2x) * nx + (v1y - v2y) * ny)
                  + -2 * vn * (nx * nx + ny * ny)).
    + field. repeat split; lra.
    + rewrite Hunit, <- Hvn. ring.
  - intros <-. split; f_equal; field; lra.
Qed.

Lemma resolve_collision_reverses_witness :
  let o1 := Particle.mk (0, 0) (1, 0) 1 1 in
  let o2 := Particle.mk (1, 0) (-1, 0) 1 1 in
  let h : gmap nat Particle.t := <[1%nat := o2]> {[ 0%nat := o1 ]} in
  ∃ o1' o2',
    _resolve_collision 0 1 h !! 0%nat = Some o1'
    ∧ _resolve_collision 0 1 h !! 1%nat = Some o2'
    ∧ Vec.dot (Vec.sub (Particle.velocity o1') (Particle.velocity o2'))
              (unit_normal o1 o2)
      = - vel_along_normal o1 o2.
Proof.
  intros o1 o2 h. destruct head_on_pair_facts as (Hd & _ & Hv).
  destruct (resolve_collision_reverses h 0 1 o1 o2)
    as (o1' & o2' & A & B & C & _); try done; try (simpl; lra).
  by exists o1', o2'.
Defined.





(** ** Two entries under gravity *)

(** X20: in an unbounded simulation holding two distinct particles of
    positive mass, a successful step changes the total momentum by exactly
    [(m1 + m2) * dt * gravity], whether or not the two particles collide. *)
Theorem two_particle_gravity (h : gmap nat Particle.t) (r1 r2 : nat)
    (o1 o2 : Particle.t) (g : Vec.t) (t dt : R) :
  0 < dt → r1 ≠ r2 →
  h !! r1 = Some o1 → h !! r2 = Some o2 →
  0 < Particle.mass o1 → 0 < Particle.mass o2 →
  total_momentum (step dt (State h (mk [r1; r2] g None t))).2
  = Vec.add (total_momentum (State h (mk [r1; r2] g None t)))
            (Vec.muls g ((Particle.mass o1 + Particle.mass o2) * dt)).
Proof.
  intros Hdt Hne H1 H2 Hm1 Hm2.
  set (f := Particle.update dt g).
  set (h1 := alter f r2 (alter f r1 h)).
  assert (Hq1 : h1 !! r1 = Some (f o1)).
  { unfold h1. by rewrite lookup_alter_ne, lookup_alter_eq, H1. }
  assert (Hq2 : h1 !! r2 = Some (f o2)).
  { unfold h1. by rewrite lookup_alter_eq, lookup_alter_ne, H2. }
  destruct (collide_conserves h1 r1 r2 (f o1) (f o2) Hq1 Hq2 Hm1 Hm2)
    as (o1' & o2' & Ho1 & Ho2 & Hp & _).
  assert (Hstep : (step dt (State h (mk [r1; r2] g None t))).2
                  = State (collide [r1; r2] 0 1 h1) (mk [r1; r2] g None (t + dt)))
    by by rewrite step_ok.
  rewrite Hstep.
  rewrite (total_momentum_two _ r1 r2 o1' o2') by done.
  rewrite (total_momentum_two h r1 r2 o1 o2) by done.
  rewrite Hp. unfold f, Particle.momentum, Particle.update, Particle.mass.
  cbn [Particle._mass Particle._velocity].
  destruct (Particle._velocity o1) as [v1x v1y], (Particle._velocity o2) as [v2x v2y],
    g as [gx gy].
  unfold Vec.add, Vec.smul, Vec.muls. cbn [fst snd]. f_equal; ring.
Qed.

Lemma two_particle_gravity_witness :
  let o1 := Particle.mk (0, 0) (1, 0) 1 1 in
  let o2 := Particle.mk (1, 0) (-1, 0) 3 1 in
  let s := State (<[1%nat := o2]> {[ 0%nat := o1 ]}) (mk [0; 1]%nat (0, -10) None 0) in
  total_momentum (step 0.1 s).2
  = Vec.add (total_momentum s) (Vec.muls (0, -10) ((1 + 3) * 0.1)).
Proof.
  intros o1 o2 s.
  apply (two_particle_gravity _ 0 1 o1 o2 (0, -10) 0 0.1); try done; simpl; lra.
Defined.

(** X21: a particle entered twice in the collection is integrated twice
    per step: in an unbounded simulation whose two entries are the same
    object, a successful step applies [update] to it two times (the pair
    formed by the two entries is never resolved as a collision). *)
Theorem duplicate_entry_step (h : gmap nat Particle.t) (r : nat) (p : Particle.t)
    (g : Vec.t) (t dt : R) :
  0 < dt → h !! r = Some p →
  ∃ h', step dt (State h (mk [r; r] g None t))
        = (Ok tt, State h' (mk [r; r] g None (t + dt)))
    ∧ h' !! r = Some (Particle.update dt g (Particle.update dt g p))
    ∧ ∀ r', r' ≠ r → h' !! r' = h !! r'.
Proof.
  intros Hdt Hp.
  set (f := Particle.update dt g).
  set (h1 := alter f r (alter f r h)).
  assert (Hcol : collide [r; r] 0 1 h1 = h1).
  { unfold collide. cbn [lookup list_lookup].
    destruct (h1 !! r); [| done].
    destruct (Particle.collides_with _ _); [apply resolve_collision_same | done]. }
  exists h1. split; [| split].
  - rewrite step_ok by done. f_equal.
    change (State (collide [r; r] 0 1 h1) (mk [r; r] g None (t + dt))
            = State h1 (mk [r; r] g None (t + dt))).
    by rewrite Hcol.
  - unfold h1. by rewrite !lookup_alter_eq, Hp.
  - intros r' Hne. unfold h1. by rewrite !lookup_alter_ne.
Qed.

Lemma duplicate_entry_step_witness :
  let p := Particle.mk (0, 100) (0, 0) 1 1 in
  ∃ h', step 1 (State {[ 0%nat := p ]} (mk [0; 0]%nat (0, -10) None 0))
        = (Ok tt, State h' (mk [0; 0]%nat (0, -10) None (0 + 1)))
    ∧ h' !! 0%nat = Some (Particle.update 1 (0, -10) (Particle.update 1 (0, -10) p)).
Proof.
  intros p.
  destruct (duplicate_entry_step {[ 0%nat := p ]} 0 p (0, -10) 0 1)
    as (h' & Hstep & Hp' & _); [lra | apply lookup_singleton_eq |].
  by exists h'.
Defined.

(** X22: the boundary handler is idempotent: running it a second time
    changes nothing. *)
Theorem boundary_idempotent (s : state) :
  _handle_boundary_collisions (_handle_boundary_collisions s)
  = _handle_boundary_collisions s.
Proof.
  destruct s as [h [ps g [[width height] |] t]]; [| done].
  unfold _handle_boundary_collisions, set_heap.
  cbn [this heap _bounds _particles]. f_equal.
  apply map_eq. intros r.
  rewrite !foldl_alter_idem by apply reflect_idem.
  destruct (decide (r ∈ ps)); [| done].
  destruct (h !! r) as [o |]; [| done]. cbn. by rewrite reflect_idem.
Qed.

(** ** Clearing *)

(** X23: after [clear], a successful step moves nothing but the clock:
    the collection stays empty, gravity and bounds are kept, every particle
    object is exactly as before, and the clock reads [0 + dt]; both totals
    are zero. *)
Theorem clear_then_step (dt : R) (s : state) :
  0 < dt →
  ∃ s', (clear ;; step dt) s = (Ok tt, s')
    ∧ s' = State (heap s) (mk [] (_gravity (this s)) (_bounds (this s)) (0 + dt))
    ∧ total_kinetic_energy s' = 0
    ∧ total_momentum s' = (0, 0).
Proof.
  intros Hdt. eexists. split; [| split; [reflexivity | by split]].
  unfold mbind, M_bind, clear, modify. rewrite step_ok by done.
  destruct s as [h [ps g [[width height] |] t]]; reflexivity.
Qed.

Lemma clear_then_step_witness :
  let s := State {[ 0%nat := Particle.mk (0, 0) (1, 0) 1 1 ]}
                 (mk [0%nat] (0, -9.81) (Some (10, 10)) 5) in
  ∃ s', (clear ;; step 0.1) s = (Ok tt, s')
    ∧ s' = State {[ 0%nat := Particle.mk (0, 0) (1, 0) 1 1 ]}
                 (mk [] (0, -9.81) (Some (10, 10)) (0 + 0.1)).
Proof.
  intros s. destruct (clear_then_step 0.1 s) as (s' & Hrun & Hs' & _); [lra |].
  by exists s'.
Defined.

(** * Properties of the code in float64 arithmetic *)

Module FV := F64.Vec.
Module FP := F64.Particle.
Module FS := F64.Simulation.

(** ** Facts about float64 comparisons and zeros *)

Lemma Prim2SF_zero : Prim2SF 0%float = S754_zero false.
Proof. reflexivity. Qed.

Lemma ltb_zero_not_leb (x : float) : (0 <? x)%float = true → (x <=? 0)%float = false.
Proof.
  rewrite FloatAxioms.ltb_spec, FloatAxioms.leb_spec, Prim2SF_zero. unfold SFltb, SFleb.
  destruct (Prim2SF x) as [s | s | | s m e]; cbn; try destruct s; done.
Qed.

Lemma eqb_not_ltb (x y : float) : (x =? y)%float = true → (x <? y)%float = false.
Proof.
  rewrite FloatAxioms.eqb_spec, FloatAxioms.ltb_spec. unfold SFeqb, SFltb.
  by destruct (SFcompare (Prim2SF x) (Prim2SF y)) as [[] |].
Qed.

Lemma abs_abs (x : float) : PrimFloat.abs (PrimFloat.abs x) = PrimFloat.abs x.
Proof.
  apply Prim2SF_inj. rewrite !abs_spec. by destruct (Prim2SF x).
Qed.

Lemma foldl_alter_iter {A} (f : A → A) (l : list nat) (h : gmap nat A) (k : nat) :
  foldl (λ h r, alter f r h) h l !! k
  = Nat.iter (count_occ Nat.eq_dec l k) f <$> h !! k.
Proof.
  revert h. induction l as [| a l IH]; intros h; cbn [foldl count_occ].
  - by destruct (h !! k).
  - rewrite IH. destruct (Nat.eq_dec a k) as [-> | Hne].
    + rewrite lookup_alter_eq. destruct (h !! k) as [x |]; [| done].
      cbn. f_equal. apply Nat.iter_swap.
    + by rewrite lookup_alter_ne.
Qed.

(** ** Collision detection *)

(** C6 (amended): [collides_with] answers true exactly when the distance
    that [distance_to] computes in float64, the rounded square root of the
    rounded sum of the rounded squares of the coordinate differences, is
    strictly below the float64 sum of the two radii; when the computed
    distance equals the computed sum it answers false. *)
Theorem collides_with_float64 (p q : FP.t) :
  let dx := ((FP.position p).1 - (FP.position q).1)%float in
  let dy := ((FP.position p).2 - (FP.position q).2)%float in
  let d := PrimFloat.sqrt (dx * dx + dy * dy)%float in
  let s := (FP.radius p + FP.radius q)%float in
  FP.distance_to p q = d
  ∧ (FP.collides_with p q = true ↔ (d <? s)%float = true)
  ∧ ((d =? s)%float = true → FP.collides_with p q = false).
Proof.
  intros dx dy d s. split; [done |]. split; [done |].
  intros Heq. by apply eqb_not_ltb.
Qed.

Lemma collides_with_float64_witness :
  FP.collides_with (FP.mk (0, 0) (0, 0) 1 1)%float (FP.mk (2, 0) (0, 0) 1 1)%float = false.
Proof.
  apply (collides_with_float64 (FP.mk (0, 0) (0, 0) 1 1)%float
                               (FP.mk (2, 0) (0, 0) 1 1)%float).
  vm_compute. reflexivity.
Defined.

(** C6, as first stated, fails within rounding of touching: the centres
    (0,0) and (1,1) are exactly [sqrt 2] apart, which is less than the
    exact sum of the radii 1 and 0.41421356237309515 (the square of the
    sum exceeds 2), yet the computed distance and the computed sum are the
    same float64 and [collides_with] answers false. *)
Lemma collides_with_rounding_counterexample :
  let p := FP.mk (0, 0)%float (0, 0)%float 1%float 1%float in
  let q := FP.mk (1, 1)%float (0, 0)%float 1%float 0.41421356237309515%float in
  (0 <= exact (FP.radius p) + exact (FP.radius q))%Q
  ∧ ((exact (FP.position p).1 - exact (FP.position q).1) ^ 2
     + (exact (FP.position p).2 - exact (FP.position q).2) ^ 2
     < (exact (FP.radius p) + exact (FP.radius q)) ^ 2)%Q
  ∧ FP.distance_to p q = (FP.radius p + FP.radius q)%float
  ∧ FP.collides_with p q = false.
Proof.
  intros p q. split; [| split; [| split]]; vm_compute; (reflexivity || discriminate).
Qed.

(** ** Boundary reflection *)

Lemma reflect64_table (width height : float) (p : FP.t) :
  FP.mass (FS.reflect width height p) = FP.mass p
  ∧ FP.radius (FS.reflect width height p) = FP.radius p
  ∧ reflected_axis64 width (FP.radius p)
      (FP.position p).1 (FP.velocity p).1
      (FP.position (FS.reflect width height p)).1
      (FP.velocity (FS.reflect width height p)).1
  ∧ reflected_axis64 height (FP.radius p)
      (FP.position p).2 (FP.velocity p).2
      (FP.position (FS.reflect width height p)).2
      (FP.velocity (FS.reflect width height p)).2.
Proof.
  destruct p as [[x y] [vx vy] m r].
  unfold FS.reflect, reflected_axis64, FP.position, FP.velocity, FP.radius, FP.mass.
  cbn [FP._position FP._velocity FP._radius FP._mass fst snd].
  destruct (x - r <? 0)%float eqn:Hl; cbn [fst snd].
  - destruct (width <? r + r)%float eqn:Hr; cbn [fst snd];
      (destruct (y - r <? 0)%float eqn:Hb; cbn [fst snd];
       [ destruct (height <? r + r)%float eqn:Ht | destruct (height <? y + r)%float eqn:Ht ];
       cbn [FP.set_position FP.set_velocity FP._position FP._velocity FP._radius FP._mass
            fst snd];
       rewrite ?abs_abs; repeat split; intros; congruence).
  - destruct (width <? x + r)%float eqn:Hr; cbn [fst snd];
      (destruct (y - r <? 0)%float eqn:Hb; cbn [fst snd];
       [ destruct (height <? r + r)%float eqn:Ht | destruct (height <? y + r)%float eqn:Ht ];
       cbn [FP.set_position FP.set_velocity FP._position FP._velocity FP._radius FP._mass
            fst snd];
       rewrite ?abs_abs; repeat split; intros; congruence).
Qed.

(** C5 (amended): with bounds [(width, height)] the boundary handler
    changes nothing but the particles of the collection, to each of which
    it applies one pass of the four wall tests per entry of the particle in
    the collection.  One pass treats the two axes independently, every
    sum, difference and comparison being the float64 one: when
    [x - radius < 0] is false and [x + radius > width] the coordinate
    becomes [width - radius] and the velocity component [- |v|]; when
    [x - radius < 0] and [radius + radius > width] is false they become
    [radius] and [|v|]; when [x - radius < 0] and [radius + radius > width]
    the far-wall test sees the clamped coordinate and they become
    [width - radius] and [- |v|]; otherwise they are unchanged.  The same
    holds for y against [height], so a particle in a corner has both axes
    corrected in the same pass; mass and radius are kept. *)
Theorem boundary_reflection_float64 (width height : float) (s : FS.state) :
  FS._bounds (FS.this s) = Some (width, height) →
  let s' := FS._handle_boundary_collisions s in
  FS.this s' = FS.this s
  ∧ (∀ r, r ∉ FS._particles (FS.this s) → FS.heap s' !! r = FS.heap s !! r)
  ∧ (∀ r p, FS.heap s !! r = Some p →
       FS.heap s' !! r
       = Some (Nat.iter (count_occ Nat.eq_dec (FS._particles (FS.this s)) r)
                        (FS.reflect width height) p))
  ∧ (∀ p, let p' := FS.reflect width height p in
       FP.mass p' = FP.mass p
       ∧ FP.radius p' = FP.radius p
       ∧ reflected_axis64 width (FP.radius p)
           (FP.position p).1 (FP.velocity p).1 (FP.position p').1 (FP.velocity p').1
       ∧ reflected_axis64 height (FP.radius p)
           (FP.position p).2 (FP.velocity p).2 (FP.position p').2 (FP.velocity p').2).
Proof.
  intros Hb. unfold FS._handle_boundary_collisions. rewrite Hb.
  cbn [FS.set_heap FS.this FS.heap]. split; [done |]. split; [| split].
  - intros r Hr. rewrite foldl_alter_iter.
    rewrite (proj1 (count_occ_not_In Nat.eq_dec _ r)).
    + by destruct (FS.heap s !! r).
    + by rewrite <- list_elem_of_In.
  - intros r p Hp. by rewrite foldl_alter_iter, Hp.
  - intros p. apply reflect64_table.
Qed.

Lemma boundary_reflection_float64_witness :
  let p := FP.mk (0.5, 9.8)%float (-1, 2)%float 1%float 1%float in
  let s := FS.State {[ 0%nat := p ]} (FS.mk [0%nat] (0, 0)%float (Some (10, 10)%float) 0%float) in
  FS.heap (FS._handle_boundary_collisions s) !! 0%nat
  = Some (FP.mk (1, 9)%float (1, -2)%float 1%float 1%float).
Proof.
  intros p s.
  destruct (boundary_reflection_float64 10 10 s eq_refl) as (_ & _ & H & _).
  rewrite (H 0%nat p); [| reflexivity].
  vm_compute. reflexivity.
Defined.

(** C5, as first stated, fails in two ways.  For a particle wider than the
    box: with bounds (1,10), a particle of radius 1 at (0,5) with velocity
    (1,0) violates the left wall, yet it ends at x = 0 = width - radius
    with x velocity -1, not at x = radius = 1 with x velocity |1|.  And
    the wall tests are those of float64: with bounds (1e16,10), a particle
    of radius 0.5 at x = 1e16 has x + radius > width for the numbers
    themselves, but the rounded sum is equal to the width, and the handler
    leaves the particle as it is. *)
Lemma boundary_reflection_oversized_counterexample64 :
  let p := FP.mk (0, 5)%float (1, 0)%float 1%float 1%float in
  let s := FS.State {[ 0%nat := p ]} (FS.mk [0%nat] (0, 0)%float (Some (1, 10)%float) 0%float) in
  let q := FP.mk (1e16, 5)%float (1, 0)%float 1%float 0.5%float in
  let t := FS.State {[ 0%nat := q ]}
                    (FS.mk [0%nat] (0, 0)%float (Some (1e16, 10)%float) 0%float) in
  (((FP.position p).1 - FP.radius p <? 0)%float = true
   ∧ FS.heap (FS._handle_boundary_collisions s) !! 0%nat
     = Some (FP.mk (0, 5)%float (-1, 0)%float 1%float 1%float)
   ∧ (0 =? FP.radius p)%float = false
   ∧ (-1 =? PrimFloat.abs (FP.velocity p).1)%float = false)
  ∧ ((exact 1e16 < exact (FP.position q).1 + exact (FP.radius q))%Q
     ∧ FS.heap (FS._handle_boundary_collisions t) !! 0%nat = Some q).
Proof.
  intros p s q t. repeat split; vm_compute; reflexivity.
Qed.

(** ** Collision resolution with zero approach speed *)

















(** ** Running the simulation *)

Lemma binary_round_aux_sign (sx : bool) (mx ex : Z) (lx : location) :
  match binary_round_aux prec emax sx mx ex lx with
  | S754_finite s _ _ => s = sx
  | _ => True
  end.
Proof.
  unfold binary_round_aux.
  destruct (shr_fexp prec emax mx ex lx) as [mrs' e'].
  destruct (shr_fexp prec emax _ e' loc_Exact) as [mrs'' e''].
  destruct (shr_m mrs''); try done. by destruct (Z.leb _ _).
Qed.

(** The quotient of a non-negative float by a positive one is not a
    negative number. *)
Lemma quotient_sign (duration dt : float) :
  (0 <? dt)%float = true → (0 <=? duration)%float = true →
  match Prim2SF (duration / dt)%float with
  | S754_finite s _ _ => s = false
  | _ => True
  end.
Proof.
  rewrite FloatAxioms.ltb_spec, FloatAxioms.leb_spec, Prim2SF_zero, div_spec.
  unfold SFltb, SFleb, SF64div, SFdiv.
  destruct (Prim2SF dt) as [st | st | | st mt et]; cbn [SFcompare];
    try destruct st; try done; intros _;
    destruct (Prim2SF duration) as [sd | sd | | sd md ed]; cbn [SFcompare];
    try destruct sd; try done; intros _.
  destruct (SFdiv_core_binary prec emax (Z.pos md) ed (Z.pos mt) et) as [[mz ez] lz].
  apply (binary_round_aux_sign (xorb false false)).
Qed.

(** On a float that is not negative, [int] is the floor. *)
Lemma int_floor (q : float) (z : Z) :
  FS.int q = F64.Ok z →
  match Prim2SF q with S754_finite s _ _ => s = false | _ => True end →
  z = Qfloor (exact q) ∧ (0 <= z)%Z.
Proof.
  unfold FS.int, exact.
  destruct (Prim2SF q) as [s | s | | s m e]; try done.
  - by intros [= <-] _.
  - intros [= <-] ->. cbn [cond_Zopp]. split.
    + destruct e as [| p | p].
      * rewrite Qfloor_Z. by rewrite Z.shiftl_mul_pow2.
      * rewrite Qfloor_Z. by rewrite Z.shiftl_mul_pow2.
      * change (Z.neg p) with (- Z.pos p)%Z.
        rewrite Z.shiftl_opp_r, Z.shiftr_div_pow2 by done.
        unfold Qfloor. by rewrite Pos2Z.inj_pow.
    + by apply Z.shiftl_nonneg.
Qed.

Lemma step64_ok (dt : float) (s : FS.state) :
  (dt <=? 0)%float = false →
  FS.step dt s
  = (F64.Ok tt,
     FS.advance_time dt
       (FS._handle_particle_collisions (FS.boundary_phase (FS.update_all dt s)))).
Proof.
  intros Hdt. unfold FS.step. by rewrite Hdt.
Qed.

Lemma resolve_collision64_dom (p1 p2 : nat) (h : gmap nat FP.t) :
  dom (FS._resolve_collision p1 p2 h) = dom h.
Proof.
  unfold FS._resolve_collision.
  destruct (h !! p1), (h !! p2); try done.
  repeat case_match; by rewrite ?dom_alter_L.
Qed.

Lemma collide64_dom (ps : list nat) (i j : nat) (h : gmap nat FP.t) :
  dom (FS.collide ps i j h) = dom h.
Proof.
  unfold FS.collide.
  destruct (ps !! i) as [p1 |], (ps !! j) as [p2 |]; try done.
  destruct (h !! p1), (h !! p2); try done.
  destruct (FP.collides_with _ _); [apply resolve_collision64_dom | done].
Qed.

(** A successful step keeps the collection, the gravity and the bounds,
    adds [dt] to the clock, and keeps the set of stored objects. *)
Lemma step64_frame (dt : float) (s : FS.state) :
  (dt <=? 0)%float = false →
  FS.step dt s = (F64.Ok tt, (FS.step dt s).2)
  ∧ FS.this (FS.step dt s).2
    = FS.mk (FS._particles (FS.this s)) (FS._gravity (FS.this s))
            (FS._bounds (FS.this s)) (FS._time (FS.this s) + dt)%float
  ∧ dom (FS.heap (FS.step dt s).2) = dom (FS.heap s).
Proof.
  intros Hdt. rewrite step64_ok by done. cbn [snd]. split; [done |].
  unfold FS.advance_time, FS._handle_particle_collisions, FS.boundary_phase,
    FS._handle_boundary_collisions, FS.update_all, FS.set_this, FS.set_heap.
  destruct s as [h [ps g b t]].
  cbn [FS.this FS.heap FS._particles FS._gravity FS._bounds FS._time].
  assert (Hupd : dom (foldl (λ h particle, alter (FP.update dt g) particle h) h ps)
                 = dom h).
  { apply (foldl_invariant (λ h', dom h' = dom h)); [| done].
    intros h' x Hh'. by rewrite dom_alter_L. }
  destruct b as [[width height] |];
    cbn [FS.this FS.heap FS._particles FS._gravity FS._bounds FS._time];
    (split; [done |]).
  - apply (foldl_invariant (λ h', dom h' = dom h)).
    + intros h' i Hh'. apply (foldl_invariant (λ h', dom h' = dom h)); [| done].
      intros h'' j Hh''. by rewrite collide64_dom.
    + apply (foldl_invariant (λ h', dom h' = dom h)); [| done].
      intros h' x Hh'. by rewrite dom_alter_L.
  - apply (foldl_invariant (λ h', dom h' = dom h)); [| done].
    intros h' i Hh'. apply (foldl_invariant (λ h', dom h' = dom h)); [| done].
    intros h'' j Hh''. by rewrite collide64_dom.
Qed.

Lemma step64_live (dt : float) (s : FS.state) :
  (dt <=? 0)%float = false → live64 s → live64 (FS.step dt s).2.
Proof.
  intros Hdt Hlive r Hr.
  destruct (step64_frame dt s Hdt) as (_ & Hthis & Hdom).
  rewrite Hthis in Hr. cbn [FS._particles] in Hr.
  apply elem_of_dom. rewrite Hdom. apply elem_of_dom. by apply Hlive.
Qed.

Lemma record64_length (s : FS.state) (histories : list (list (float * float))) :
  length (FS.record s histories) = length histories.
Proof.
  unfold FS.record.
  apply (foldl_invariant (λ hist, length hist = length histories)); [| done].
  intros hist [i r] Hlen. destruct (FS.heap s !! (i, r).2); [| done].
  by rewrite length_alter.
Qed.

(** One recording pass appends the current position of the [j]-th entry
    to the [j]-th history and to no other. *)
Lemma record64_lookup (s : FS.state) (histories : list (list (float * float)))
    (j : nat) :
  FS.record s histories !! j
  = match FS._particles (FS.this s) !! j with
    | Some r =>
        match FS.heap s !! r with
        | Some o =>
            (λ l, l ++ [((FP.position o).1, (FP.position o).2)]) <$> histories !! j
        | None => histories !! j
        end
    | None => histories !! j
    end.
Proof.
  unfold FS.record. generalize (FS._particles (FS.this s)) as ps.
  induction ps as [| r ps IH] using rev_ind; [done |].
  rewrite imap_app, foldl_app. cbn [imap foldl snd fst].
  rewrite Nat.add_0_r.
  destruct (decide (j = length ps)) as [-> | Hne].
  - rewrite list_lookup_middle by done.
    destruct (FS.heap s !! r) as [o |].
    + rewrite list_lookup_alter_eq, IH.
      by rewrite (lookup_ge_None_2 ps (length ps)).
    + rewrite IH. by rewrite (lookup_ge_None_2 ps (length ps)).
  - assert (Hlook : (ps ++ [r]) !! j = ps !! j).
    { destruct (decide (j < length ps)%nat).
      - by rewrite lookup_app_l.
      - rewrite !lookup_ge_None_2; [done | lia |].
        rewrite length_app. simpl. lia. }
    rewrite Hlook.
    destruct (FS.heap s !! r) as [o |]; [| exact IH].
    rewrite list_lookup_alter_ne by done. exact IH.
Qed.

Lemma positions_before64_lookup (n : nat) (dt : float) (r : nat) (s : FS.state)
    (k : nat) :
  (dt <=? 0)%float = false → live64 s → r ∈ FS._particles (FS.this s) → (k < n)%nat →
  length (positions_before64 n dt r s) = n
  ∧ ∃ o, FS.heap (iter_step64 k dt s) !! r = Some o
      ∧ positions_before64 n dt r s !! k
        = Some ((FP.position o).1, (FP.position o).2).
Proof.
  intros Hdt. revert s k. induction n as [| n IH]; intros s k Hlive Hr Hk; [lia |].
  destruct (Hlive r Hr) as [o Ho]. cbn [positions_before64]. rewrite Ho.
  destruct (step64_frame dt s Hdt) as (_ & Hthis & _).
  assert (Hr' : r ∈ FS._particles (FS.this (FS.step dt s).2)) by by rewrite Hthis.
  pose proof (step64_live dt s Hdt Hlive) as Hlive'.
  assert (Hlen : length (positions_before64 n dt r (FS.step dt s).2) = n).
  { destruct n as [| n']; [done |].
    by destruct (IH (FS.step dt s).2 0%nat Hlive' Hr' ltac:(lia)). }
  split; [simpl; by rewrite Hlen |].
  destruct k as [| k].
  - exists o. by split.
  - destruct (IH (FS.step dt s).2 k Hlive' Hr' ltac:(lia)) as (_ & o' & Ho' & Hk').
    exists o'. by split.
Qed.

Lemma run_loop64_spec (n : nat) (dt : float) (s : FS.state)
    (histories : list (list (float * float))) :
  (dt <=? 0)%float = false → live64 s →
  ∃ histories',
    FS.run_loop n dt histories s = (F64.Ok histories', iter_step64 n dt s)
    ∧ length histories' = length histories
    ∧ ∀ j r, FS._particles (FS.this s) !! j = Some r →
        histories' !! j = (λ l, l ++ positions_before64 n dt r s) <$> histories !! j.
Proof.
  intros Hdt. revert s histories.
  induction n as [| n IH]; intros s histories Hlive.
  - exists histories. split; [done |]. split; [done |].
    intros j r _. destruct (histories !! j); simpl; by rewrite ?app_nil_r.
  - destruct (step64_frame dt s Hdt) as (Hstep & Hthis & _).
    destruct (IH (FS.step dt s).2 (FS.record s histories) (step64_live dt s Hdt Hlive))
      as (histories' & Hrun & Hlen & Hhist).
    exists histories'. split; [| split].
    + cbn [FS.run_loop]. unfold mbind, FS.M_bind, FS.gets. rewrite Hstep. exact Hrun.
    + by rewrite Hlen, record64_length.
    + intros j r Hj. rewrite (Hhist j r) by by rewrite Hthis.
      rewrite record64_lookup, Hj.
      destruct (Hlive r) as [o Ho]; [by eapply list_elem_of_lookup_2 |].
      cbn [positions_before64]. rewrite Ho.
      destruct (histories !! j); simpl; by rewrite <- ?app_assoc.
Qed.

Lemma iter_step64_time (n : nat) (dt : float) (s : FS.state) :
  (dt <=? 0)%float = false →
  FS._particles (FS.this (iter_step64 n dt s)) = FS._particles (FS.this s)
  ∧ FS._time (FS.this (iter_step64 n dt s))
    = Nat.iter n (λ t, (t + dt)%float) (FS._time (FS.this s)).
Proof.
  intros Hdt. revert s. induction n as [| n IH]; intros s; [done |].
  destruct (step64_frame dt s Hdt) as (_ & Hthis & _).
  destruct (IH (FS.step dt s).2) as [Hps Ht].
  cbn [iter_step64]. rewrite Hps, Ht, Hthis. cbn [FS._particles FS._time].
  split; [done |]. by rewrite Nat.iter_succ_r.
Qed.

Lemma finite64_int (q : float) : finite64 q = true → ∃ z, FS.int q = F64.Ok z.
Proof.
  unfold finite64, FS.int. destruct (Prim2SF q); try done; by eexists.
Qed.

Lemma eqb_zero_not_ltb (x : float) : (0 <? x)%float = true → (x =? 0)%float = false.
Proof.
  rewrite FloatAxioms.ltb_spec, FloatAxioms.eqb_spec, Prim2SF_zero.
  unfold SFltb, SFeqb.
  destruct (Prim2SF x) as [[] | [] | | [] m e]; done.
Qed.

(** [run] with a time step that [step] accepts and a quotient that [int]
    converts to [z]: [Z.to_nat z] steps are performed, and one history per
    entry of the collection is returned, holding the positions of that
    entry before each step. *)
Lemma run64_count (duration dt : float) (z : Z) (s : FS.state) :
  (dt <=? 0)%float = false → (dt =? 0)%float = false →
  FS.int (duration / dt) = F64.Ok z → live64 s →
  ∃ histories,
    FS.run duration dt s = (F64.Ok histories, iter_step64 (Z.to_nat z) dt s)
    ∧ length histories = length (FS._particles (FS.this s))
    ∧ ∀ i r, FS._particles (FS.this s) !! i = Some r →
        ∃ hist, histories !! i = Some hist
          ∧ length hist = Z.to_nat z
          ∧ ∀ k, (k < Z.to_nat z)%nat →
              ∃ o, FS.heap (iter_step64 k dt s) !! r = Some o
                ∧ hist !! k = Some ((FP.position o).1, (FP.position o).2).
Proof.
  intros Hdt Hnz Hint Hlive. set (n := Z.to_nat z).
  destruct (run_loop64_spec n dt s (map (λ _, []) (FS._particles (FS.this s)))
              Hdt Hlive) as (histories & Hrun & Hlen & Hhist).
  exists histories. split; [| split].
  - unfold FS.run, mbind, FS.M_bind, FS.gets. rewrite Hnz, Hint. exact Hrun.
  - by rewrite Hlen, length_map.
  - intros i r Hi.
    assert (Hr : r ∈ FS._particles (FS.this s)) by by eapply list_elem_of_lookup_2.
    exists (positions_before64 n dt r s).
    split.
    + rewrite (Hhist i r Hi), list_lookup_fmap, Hi. done.
    + destruct n as [| n'] eqn:Hn.
      * split; [done |]. intros k Hk. lia.
      * split.
        -- by destruct (positions_before64_lookup (S n') dt r s 0%nat Hdt Hlive Hr
                          ltac:(lia)).
        -- intros k Hk.
           by destruct (positions_before64_lookup (S n') dt r s k Hdt Hlive Hr Hk).
Qed.

(** C7 (amended): for [dt > 0] and [duration >= 0] whose float64 quotient
    [duration / dt] is finite, [run duration dt] performs exactly
    [n = floor q] successful steps, where [q] is the value of the rounded
    float64 quotient [duration / dt] (the final state is the state after
    [n] calls of [step dt], [dt] having been added [n] times to the clock),
    and returns one history per entry of the collection, in collection
    order; each history has exactly [n] positions, the [k]-th being the
    position of that particle in the state reached after [k] steps, i.e.
    immediately before step [k + 1].  In particular [run 1.0 0.1] on a
    single particle returns one history of exactly 10 positions. *)
Theorem run_float64 :
  (∀ (duration dt : float) (s : FS.state),
     (0 <? dt)%float = true → (0 <=? duration)%float = true →
     finite64 (duration / dt) = true → live64 s →
     let n := Z.to_nat (Qfloor (exact (duration / dt))) in
     Z.of_nat n = Qfloor (exact (duration / dt))
     ∧ ∃ histories,
         FS.run duration dt s = (F64.Ok histories, iter_step64 n dt s)
         ∧ FS._time (FS.this (iter_step64 n dt s))
           = Nat.iter n (λ t, (t + dt)%float) (FS._time (FS.this s))
         ∧ length histories = length (FS._particles (FS.this s))
         ∧ ∀ i r, FS._particles (FS.this s) !! i = Some r →
             ∃ hist, histories !! i = Some hist
               ∧ length hist = n
               ∧ ∀ k, (k < n)%nat →
                   ∃ o, FS.heap (iter_step64 k dt s) !! r = Some o
                     ∧ hist !! k = Some ((FP.position o).1, (FP.position o).2))
  ∧ (∀ (h : gmap nat FP.t) (r : nat) (self : FS.t),
       is_Some (h !! r) → FS._particles self = [r] →
       ∃ hist s', FS.run 1.0 0.1 (FS.State h self) = (F64.Ok [hist], s')
         ∧ length hist = 10%nat).
Proof.
  split.
  - intros duration dt s Hdt Hdur Hfin Hlive n.
    destruct (finite64_int _ Hfin) as [z Hint].
    destruct (int_floor _ z Hint (quotient_sign duration dt Hdt Hdur)) as [Hz Hpos].
    subst n. rewrite <- Hz. split; [lia |].
    pose proof (ltb_zero_not_leb dt Hdt) as Hle.
    destruct (run64_count duration dt z s Hle (eqb_zero_not_ltb dt Hdt) Hint Hlive)
      as (histories & Hrun & Hlen & Hhist).
    exists histories. split; [exact Hrun |]. split; [| by split].
    by apply iter_step64_time.
  - intros h r self Hr Hps.
    assert (Hlive : live64 (FS.State h self)).
    { intros r'. cbn [FS.this FS.heap]. rewrite Hps.
      by intros ->%list_elem_of_singleton. }
    destruct (run64_count 1.0 0.1 10 (FS.State h self)) as (histories & Hrun & Hlen & Hhist);
      [by vm_compute | by vm_compute | by vm_compute | done |].
    cbn [FS.this] in *. rewrite Hps in *.
    destruct (Hhist 0%nat r eq_refl) as (hist & Hhist0 & Hlen0 & _).
    destruct histories as [| hist' [| ? ?]]; try done.
    injection Hhist0 as ->.
    exists hist, (iter_step64 (Z.to_nat 10) 0.1 (FS.State h self)). by split.
Qed.

Lemma run_float64_witness :
  let s := FS.State {[ 0%nat := FP.mk (0, 0) (1, 0) 1 1 ]}%float
                    (FS.mk [0%nat] (0, 0)%float None 0%float) in
  (∃ histories, FS.run 1 0.5 s = (F64.Ok histories, iter_step64 2 0.5 s)
     ∧ length histories = 1%nat)
  ∧ (∃ hist s', FS.run 1.0 0.1 s = (F64.Ok [hist], s') ∧ length hist = 10%nat).
Proof.
  intros s.
  assert (Hlive : live64 s).
  { intros r Hr. apply list_elem_of_singleton in Hr as ->.
    eexists. apply lookup_singleton_eq. }
  split.
  - destruct (proj1 run_float64 1%float 0.5%float s)
      as (_ & histories & Hrun & _ & Hlen & _);
      [by vm_compute | by vm_compute | by vm_compute | exact Hlive |].
    exists histories. split; [exact Hrun | exact Hlen].
  - apply (proj2 run_float64 _ 0%nat); [| reflexivity].
    eexists. apply lookup_singleton_eq.
Defined.

(** C7, as first stated, fails in three ways.  With [duration = -1] and
    [dt = -1] the quotient is 1, so one step is attempted, but [step]
    rejects the non-positive [dt] and [run] raises [ValueError] instead of
    returning histories.  With [duration = 1e308] and [dt = 1e-308] the
    float64 quotient is infinite and [int] raises [OverflowError].  And the
    number of steps is the floor of the rounded quotient, not of the
    quotient of the two numbers: for 1.0 and 0.1 the quotient of the two
    float64 values is below 10, with floor 9, while the rounded quotient is
    10 and ten steps are performed. *)
Lemma run_float64_counterexample :
  let s := FS.State {[ 0%nat := FP.mk (0, 0) (1, 0) 1 1 ]}%float
                    (FS.mk [0%nat] (0, 0)%float None 0%float) in
  (FS.int (-1 / -1) = F64.Ok 1%Z
   ∧ FS.run (-1) (-1) s
     = (F64.Raise (F64.ValueError "Time step must be positive"), s))
  ∧ ((0 <? 1e-308)%float = true ∧ (0 <=? 1e308)%float = true
     ∧ FS.run 1e308 1e-308 s
       = (F64.Raise (F64.OverflowError "cannot convert float infinity to integer"), s))
  ∧ (Qfloor (exact 1.0 / exact 0.1) = 9%Z
     ∧ FS.int (1.0 / 0.1) = F64.Ok 10%Z
     ∧ ∃ hist s', FS.run 1.0 0.1 s = (F64.Ok [hist], s') ∧ length hist = 10%nat).
Proof.
  intros s. split; [| split].
  - split; [by vm_compute |].
    unfold FS.run, mbind, FS.M_bind, FS.gets.
    replace (-1 =? 0)%float with false by by vm_compute.
    replace (FS.int (-1 / -1)) with (F64.Ok (A := Z) 1%Z) by by vm_compute.
    change (Z.to_nat 1) with 1%nat. cbn [FS.run_loop].
    unfold mbind, FS.M_bind, FS.gets, FS.step.
    by replace (-1 <=? 0)%float with true by by vm_compute.
  - split; [by vm_compute |]. split; [by vm_compute |].
    unfold FS.run, mbind, FS.M_bind, FS.gets.
    replace (1e-308 =? 0)%float with false by by vm_compute.
    by replace (FS.int (1e308 / 1e-308))
      with (F64.Raise (A := Z)
              (F64.OverflowError "cannot convert float infinity to integer"))
      by by vm_compute.
  - split; [by vm_compute |]. split; [by vm_compute |].
    assert (Hlive : live64 s).
    { intros r Hr. apply list_elem_of_singleton in Hr as ->.
      eexists. apply lookup_singleton_eq. }
    destruct (run64_count 1.0 0.1 10 s) as (histories & Hrun & Hlen & Hhist);
      [by vm_compute | by vm_compute | by vm_compute | done |].
    destruct (Hhist 0%nat 0%nat eq_refl) as (hist & Hhist0 & Hlen0 & _).
    destruct histories as [| hist' [| ? ?]]; try done.
    injection Hhist0 as ->.
    exists hist, (iter_step64 (Z.to_nat 10) 0.1 s). by split.
Qed.

(** ** Degenerate runs *)

Lemma digits2_pos_bounds (m : positive) :
  (2 ^ (Z.pos (digits2_pos m) - 1) <= Z.pos m < 2 ^ Z.pos (digits2_pos m))%Z.
Proof.
  induction m as [p IH | p IH |]; cbn [digits2_pos]; [| | done].
  - rewrite Pos2Z.inj_succ, Z.pow_succ_r by done.
    replace (Z.succ (Z.pos (digits2_pos p)) - 1)%Z
      with (Z.succ (Z.pos (digits2_pos p) - 1)) by lia.
    rewrite Z.pow_succ_r by lia. lia.
  - rewrite Pos2Z.inj_succ, Z.pow_succ_r by done.
    replace (Z.succ (Z.pos (digits2_pos p)) - 1)%Z
      with (Z.succ (Z.pos (digits2_pos p) - 1)) by lia.
    rewrite Z.pow_succ_r by lia. lia.
Qed.

Lemma shiftl_negative (m e : Z) : (e < 0)%Z → Z.shiftl m e = (m / 2 ^ (- e))%Z.
Proof.
  intros He. replace e with (- - e)%Z at 1 by lia.
  rewrite Z.shiftl_opp_r. apply Z.shiftr_div_pow2. lia.
Qed.

(** [int] of a finite float64, compared with 1: a float below 1 truncates
    to an integer that is at most 0, a float that is at least 1 to an
    integer that is at least 1. *)
Lemma int_one (q : float) :
  finite64 q = true →
  ∃ z, FS.int q = F64.Ok z
     ∧ ((q <? 1)%float = true → (z <= 0)%Z)
     ∧ ((1 <=? q)%float = true → (1 <= z)%Z).
Proof.
  pose proof (Prim2SF_valid q) as Hvalid. unfold finite64, FS.int.
  rewrite FloatAxioms.ltb_spec, FloatAxioms.leb_spec.
  change (Prim2SF 1) with (S754_finite false 4503599627370496 (-52)).
  destruct (Prim2SF q) as [s | s | | s m e]; try done; intros _.
  - exists 0%Z. split; [done |]. split; [done |]. by destruct s.
  - eexists. split; [done |]. destruct s.
    + cbn [cond_Zopp]. split; [| done]. intros _.
      assert (0 <= Z.shiftl (Z.pos m) e)%Z by by apply Z.shiftl_nonneg. lia.
    + cbn [cond_Zopp]. unfold SFltb, SFleb, SFcompare.
      assert (Hcc : ∀ a b, Pos.compare_cont Eq a b = (a ?= b)%positive) by done.
      rewrite (Hcc m 4503599627370496%positive), (Hcc 4503599627370496%positive m).
      clear Hcc.
      rewrite (Z.compare_antisym e (-52)), (Pos.compare_antisym m 4503599627370496).
      cbn [SpecFloat.valid_binary] in Hvalid. unfold bounded, canonical_mantissa in Hvalid.
      apply andb_prop in Hvalid as [Hcanon _]. apply Z.eqb_eq in Hcanon.
      unfold fexp, SpecFloat.emin, prec, emax in Hcanon.
      pose proof (digits2_pos_bounds m) as [Hlow Hhigh].
      set (d := Z.pos (digits2_pos m)) in *.
      assert (Hd : (0 < d)%Z) by done.
      destruct (Z.compare_spec e (-52)) as [-> | He | He]; cbn [CompOpp].
      * assert (Hd53 : d = 53%Z) by lia. rewrite Hd53 in *.
        change (2 ^ (53 - 1))%Z with 4503599627370496%Z in Hlow.
        rewrite shiftl_negative by lia.
        change (2 ^ (- -52))%Z with 4503599627370496%Z.
        assert (Hq : (0 < Z.pos m / 4503599627370496)%Z) by (apply Z.div_str_pos; lia).
        split; [| intros _; lia].
        destruct (m ?= 4503599627370496)%positive eqn:Hcmp;
          [discriminate | | discriminate].
        apply Pos2Z.pos_lt_pos in Hcmp. intros _. exfalso. clear -Hcmp Hlow. lia.
      * split; [| done]. intros _. rewrite shiftl_negative by lia.
        rewrite Z.div_small; [done |]. split; [done |].
        assert (2 ^ d <= 2 ^ (- e))%Z by (apply Z.pow_le_mono_r; lia). lia.
      * split; [done |]. intros _.
        destruct (decide (e < 0)%Z) as [Hneg | Hnn].
        -- assert (Hd53 : d = 53%Z) by lia. rewrite Hd53 in *.
           rewrite shiftl_negative by done.
           assert (2 ^ (- e) <= 2 ^ (53 - 1))%Z by (apply Z.pow_le_mono_r; lia).
           assert (0 < 2 ^ (- e))%Z by (apply Z.pow_pos_nonneg; lia).
           assert (0 < Z.pos m / 2 ^ (- e))%Z by (apply Z.div_str_pos; lia). lia.
        -- rewrite Z.shiftl_mul_pow2 by lia.
           assert (0 < 2 ^ e)%Z by (apply Z.pow_pos_nonneg; lia). nia.
Qed.

Lemma is_nan_spec (q : float) : PrimFloat.is_nan q = true → Prim2SF q = S754_nan.
Proof.
  unfold PrimFloat.is_nan. rewrite FloatAxioms.eqb_spec. unfold SFeqb, SFcompare.
  assert (Hcc : ∀ a, Pos.compare_cont Eq a a = Eq) by (intros a; apply Pos.compare_refl).
  destruct (Prim2SF q) as [s | s | | s m e]; try done.
  - by destruct s.
  - rewrite Z.compare_refl, Hcc. by destruct s.
Qed.

Lemma is_infinity_spec (q : float) :
  PrimFloat.is_infinity q = true → ∃ s, Prim2SF q = S754_infinity s.
Proof.
  unfold PrimFloat.is_infinity. rewrite FloatAxioms.eqb_spec, abs_spec.
  change (Prim2SF infinity) with (S754_infinity false).
  destruct (Prim2SF q) as [s | s | | s m e]; try done. by exists s.
Qed.

Lemma ltb_zero_negative (x : float) :
  (x <? 0)%float = true → (x =? 0)%float = false ∧ (x <=? 0)%float = true.
Proof.
  rewrite FloatAxioms.ltb_spec, FloatAxioms.eqb_spec, FloatAxioms.leb_spec, Prim2SF_zero.
  unfold SFltb, SFeqb, SFleb.
  destruct (Prim2SF x) as [[] | [] | | [] m e]; done.
Qed.

(** X18: [run] with [dt = 0] (of either sign) raises [ZeroDivisionError].
    With a nonzero [dt], an infinite float64 quotient [duration / dt]
    raises [OverflowError] and a NaN quotient [ValueError], both from
    [int].  With a negative [dt] and a finite quotient that is at least 1
    (so that at least one step is due) [run] raises the [ValueError] of
    [step].  In every case the state is left as it was. *)
Theorem run_errors64 (duration dt : float) (s : FS.state) :
  ((dt =? 0)%float = true →
     FS.run duration dt s
     = (F64.Raise (F64.ZeroDivisionError "float division by zero"), s))
  ∧ ((dt =? 0)%float = false → PrimFloat.is_infinity (duration / dt) = true →
     FS.run duration dt s
     = (F64.Raise (F64.OverflowError "cannot convert float infinity to integer"), s))
  ∧ ((dt =? 0)%float = false → PrimFloat.is_nan (duration / dt) = true →
     FS.run duration dt s
     = (F64.Raise (F64.ValueError "cannot convert float NaN to integer"), s))
  ∧ ((dt <? 0)%float = true → finite64 (duration / dt) = true →
     (1 <=? duration / dt)%float = true →
     FS.run duration dt s
     = (F64.Raise (F64.ValueError "Time step must be positive"), s)).
Proof.
  unfold FS.run, mbind, FS.M_bind, FS.gets. split; [| split; [| split]].
  - by intros ->.
  - intros -> [sg Hinf]%is_infinity_spec. unfold FS.int. by rewrite Hinf.
  - intros -> Hnan%is_nan_spec. unfold FS.int. by rewrite Hnan.
  - intros [-> Hle]%ltb_zero_negative Hfin Hone.
    destruct (int_one _ Hfin) as (z & -> & _ & Hz). specialize (Hz Hone).
    destruct (Z.to_nat z) as [| n] eqn:Hn; [lia |].
    cbn [FS.run_loop]. unfold mbind, FS.M_bind, FS.gets, FS.step. by rewrite Hle.
Qed.

Lemma run_errors64_witness :
  let s := FS.State {[ 0%nat := FP.mk (0, 0) (1, 0) 1 1 ]}%float
                    (FS.mk [0%nat] (0, 0)%float None 0%float) in
  FS.run 1 0 s = (F64.Raise (F64.ZeroDivisionError "float division by zero"), s)
  ∧ FS.run 1e308 1e-308 s
    = (F64.Raise (F64.OverflowError "cannot convert float infinity to integer"), s)
  ∧ FS.run (-3) (-1) s = (F64.Raise (F64.ValueError "Time step must be positive"), s).
Proof.
  intros s. split; [| split].
  - apply (proj1 (run_errors64 1 0 s)). by vm_compute.
  - apply (proj1 (proj2 (run_errors64 1e308 1e-308 s))); by vm_compute.
  - apply (proj2 (proj2 (proj2 (run_errors64 (-3) (-1) s)))); by vm_compute.
Defined.

(** X19: when [dt] is not zero and the float64 quotient [duration / dt] is
    finite and below 1 (a duration shorter than one step, or of the sign
    opposite to [dt]) [run] performs no step: it returns one empty history
    per entry of the collection and leaves the state as it was, without
    raising even for a negative [dt]. *)
Theorem run_no_step64 (duration dt : float) (s : FS.state) :
  (dt =? 0)%float = false → finite64 (duration / dt) = true →
  (duration / dt <? 1)%float = true →
  FS.run duration dt s = (F64.Ok (map (λ _, []) (FS._particles (FS.this s))), s).
Proof.
  intros Hdt Hfin Hlt. unfold FS.run, mbind, FS.M_bind, FS.gets. rewrite Hdt.
  destruct (int_one _ Hfin) as (z & -> & Hz & _). specialize (Hz Hlt).
  by replace (Z.to_nat z) with 0%nat by lia.
Qed.

Lemma run_no_step64_witness :
  let s := FS.State {[ 0%nat := FP.mk (0, 0) (1, 0) 1 1 ]}%float
                    (FS.mk [0; 0]%nat (0, 0)%float None 0%float) in
  FS.run 0.05 0.1 s = (F64.Ok [[]; []], s) ∧ FS.run 1 (-0.1) s = (F64.Ok [[]; []], s).
Proof.
  intros s. split.
  - apply (run_no_step64 0.05 0.1 s); by vm_compute.
  - apply (run_no_step64 1 (-0.1) s); by vm_compute.
Defined.
